(** * iRevNet: invertible residual blocks and their stack

    A shallow embedding of [model/src/distill/models/iRevNet.py]
    (classes [irevnet_block] and [iRevNet]) together with the properties of
    the coupling block, of the stage schedule and of the network-level
    forward/inverse pair.

    Tensors are seen along their channel axis (axis 1 of the N*C*H*W layout),
    the only axis the module itself slices, concatenates and pads.  What the
    numeric framework does inside one channel plane is kept abstract. *)

From Stdlib Require Import List ZArith Lia Bool QArith FunctionalExtensionality.
Import ListNotations.
Local Open Scope Z_scope.

(** ** Python exceptions and the result monad *)

Inductive exn : Type :=
| TypeError          (* subscripting [None] *)
| IndexError         (* list index out of range *)
| ZeroDivisionError  (* integer [//] by zero *)
| ValueError         (* an argument outside its range: [nn.Dropout(p)] *)
| RuntimeError.      (* the framework's RuntimeError: dimensions that do not
                        match, a negative dimension *)

Inductive result (A : Type) : Type :=
| Ok (a : A)
| Raise (e : exn).
Arguments Ok {A} a.
Arguments Raise {A} e.

Definition bind {A B : Type} (r : result A) (k : A -> result B) : result B :=
  match r with
  | Ok a => k a
  | Raise e => Raise e
  end.

Notation "'do' x <- r ; k" := (bind r (fun x => k))
  (at level 10, x pattern, r at level 100, k at level 200).

(** Python's [a // b] on integers: floor division, which is [Z.div], except
    that a zero divisor raises. *)
Definition floordiv (a b : Z) : result Z :=
  if b =? 0 then Raise ZeroDivisionError else Ok (a / b).

(** ** The numeric framework seen from the module

    A channel is one plane of the tensor (for a whole batch).  The framework
    supplies elementwise addition and negation of planes, the zero plane, and
    the spatial permutation [psi] with its inverse.  Arithmetic is exact
    (infinite precision): planes form a group under addition.

    [psi] lives in [model_utils], which is not part of the sources; it is
    taken as a parameter with the one property the specification gives it: it
    is a fixed bijection whose [inverse] undoes its [forward]. *)

Class Framework : Type := {
  Chan : Type;
  cadd : Chan -> Chan -> Chan;
  cneg : Chan -> Chan;
  czero : Chan;
  cadd_assoc : forall a b c, cadd a (cadd b c) = cadd (cadd a b) c;
  cadd_neg_l : forall a, cadd (cneg a) a = czero;
  cadd_zero_l : forall a, cadd czero a = a;
  psi_forward : Z -> list Chan -> list Chan;
  psi_inverse : Z -> list Chan -> list Chan;
  psi_inverse_forward :
    forall bs t, psi_inverse bs (psi_forward bs t) = t
}.

Section Tensors.
Context {FW : Framework}.

(** A tensor is the list of its channels, in order. *)
Definition Tensor : Type := list Chan.

Definition channels (t : Tensor) : Z := Z.of_nat (length t).

(** [-t] *)
Definition tneg (t : Tensor) : Tensor := map cneg t.

Fixpoint zip_add (a b : Tensor) : Tensor :=
  match a, b with
  | x :: a', y :: b' => cadd x y :: zip_add a' b'
  | _, _ => []
  end.

(** [a + b] along the channel axis: equal channel counts add channel by
    channel; a single channel is broadcast against the other operand; any
    other combination is a dimension mismatch. *)
Definition tadd (a b : Tensor) : result Tensor :=
  if (length a =? length b)%nat then Ok (zip_add a b)
  else match a, b with
       | [x], _ => Ok (map (cadd x) b)
       | _, [y] => Ok (map (fun x => cadd x y) a)
       | _, _ => Raise RuntimeError
       end.

(** Modelled from the spec: [merge] of [model_utils] (absent from the
    sources).  It joins the pair along the channel axis, first component
    first. *)
Definition merge (x1 x2 : Tensor) : Tensor := x1 ++ x2.

(** Modelled from the spec: [split] of [model_utils] (absent from the
    sources).  It partitions the channels into a first and a second half,
    in order.  The shipped networks take three-channel inputs, which
    [forward] slices at [in_ch // 2] and [inverse] hands to [split]: an odd
    channel count is split like that slice, the first part taking the
    smaller half, and raises nothing. *)
Definition split (t : Tensor) : result (Tensor * Tensor) :=
  Ok (firstn (Nat.div2 (length t)) t, skipn (Nat.div2 (length t)) t).

(** Modelled from the spec: [injective_pad] of [model_utils] (absent from
    the sources).  [forward] appends [pad_size] zero channels; [inverse]
    truncates them again.  The specification describes positive pad sizes
    only; for [pad_size <= 0] nothing is appended and nothing removed. *)
Definition inj_pad_forward (pad_size : Z) (t : Tensor) : Tensor :=
  t ++ repeat czero (Z.to_nat pad_size).

Definition inj_pad_inverse (pad_size : Z) (t : Tensor) : Tensor :=
  firstn (length t - Z.to_nat pad_size) t.

End Tensors.

(** ** The coupling block: class [irevnet_block] *)

(** The layers listed by the constructor, as the arguments they are built
    with ([kernel_size=3], [padding=1], [bias=False] and [inplace=True] are
    the same everywhere). *)
Inductive layer : Type :=
| BatchNorm2d (num_features : Z) (affine : bool)
| ReLU
| Conv2d (in_channels out_channels conv_stride : Z)
| Dropout (p : Q).

(** The layer constructors as far as they can fail: the framework refuses
    to allocate parameters for a negative channel count, and [nn.Dropout]
    checks its probability. *)
Definition new_BatchNorm2d (num_features : Z) (affine : bool) : result layer :=
  if num_features <? 0 then Raise RuntimeError
  else Ok (BatchNorm2d num_features affine).

Definition new_Conv2d (in_channels out_channels conv_stride : Z)
  : result layer :=
  if (in_channels <? 0) || (out_channels <? 0) then Raise RuntimeError
  else Ok (Conv2d in_channels out_channels conv_stride).

Definition new_Dropout (p : Q) : result layer :=
  if Qle_bool 0 p && Qle_bool p 1 then Ok (Dropout p) else Raise ValueError.

(** [nn.Linear(in_features, out_features)] *)
Definition new_Linear (in_features out_features : Z) : result (Z * Z) :=
  if (in_features <? 0) || (out_features <? 0) then Raise RuntimeError
  else Ok (in_features, out_features).

Module irevnet_block.
Section Block.
Context {FW : Framework}.

(** The fields of a block object.  [inj_pad] and [psi] hold the argument
    their helper object was built with; [layers] is the list the
    constructor hands to [nn.Sequential], and [bottleneck_block] the
    transform F that the sequential computes with its learned parameters,
    read as a function of its input: the layers in evaluation mode, on
    inputs of the width they are built for.  What an evaluation does to the
    state the framework keeps in the layers is modelled in [Stateful]
    below. *)
Record t : Type := mk {
  first : bool;
  pad : Z;
  stride : Z;
  inj_pad : Z;
  psi : Z;
  layers : list layer;
  bottleneck_block : Tensor -> Tensor
}.

(** The guard [self.pad != 0 and self.stride == 1]. *)
Definition pads (b : t) : bool := negb (pad b =? 0) && (stride b =? 1).

(** [__init__]; [seq] is the framework's instantiation of a layer list.
    The layers are built in the order of the source, so that the first
    constructor to fail decides the exception; [int(out_ch//mult)] is
    evaluated as an argument of the first convolution. *)
Definition init (seq : list layer -> Tensor -> Tensor)
    (in_ch out_ch stride : Z) (first : bool) (dropout_rate : Q)
    (affineBN : bool) (mult : Z) : result t :=
  let pad := 2 * out_ch - in_ch in
  let in_ch := if negb (pad =? 0) && (stride =? 1) then out_ch * 2
               else in_ch in
  do prologue <- (if first then Ok []
                  else do bn <- new_BatchNorm2d (in_ch / 2) affineBN;
                       Ok [bn; ReLU]);
  do w <- floordiv out_ch mult;
  do conv1 <- new_Conv2d (in_ch / 2) w stride;
  do bn1 <- new_BatchNorm2d w affineBN;
  do conv2 <- new_Conv2d w w 1;
  do drop <- new_Dropout dropout_rate;
  do bn2 <- new_BatchNorm2d w affineBN;
  do conv3 <- new_Conv2d w out_ch 1;
  let layers :=
    prologue ++ [conv1; bn1; ReLU; conv2; drop; bn2; ReLU; conv3] in
  Ok {| first := first; pad := pad; stride := stride;
        inj_pad := pad; psi := stride;
        layers := layers; bottleneck_block := seq layers |}.

(** [forward]: bijective or injective block forward. *)
Definition forward (self : t) (x : Tensor * Tensor)
  : result (Tensor * Tensor) :=
  do x <- (if pads self
           then split (inj_pad_forward (inj_pad self) (merge (fst x) (snd x)))
           else Ok x);
  let x1 := fst x in
  let x2 := snd x in
  let Fx2 := bottleneck_block self x2 in
  let x1 := if stride self =? 2 then psi_forward (psi self) x1 else x1 in
  let x2 := if stride self =? 2 then psi_forward (psi self) x2 else x2 in
  do y1 <- tadd Fx2 x1;
  Ok (x2, y1).

(** [inverse]: bijective or injective block inverse. *)
Definition inverse (self : t) (x : Tensor * Tensor)
  : result (Tensor * Tensor) :=
  let x2 := fst x in
  let y1 := snd x in
  let x2 := if stride self =? 2 then psi_inverse (psi self) x2 else x2 in
  let Fx2 := tneg (bottleneck_block self x2) in
  do x1 <- tadd Fx2 y1;
  let x1 := if stride self =? 2 then psi_inverse (psi self) x1 else x1 in
  if pads self
  then split (inj_pad_inverse (inj_pad self) (merge x1 x2))
  else Ok (x1, x2).

End Block.
End irevnet_block.

(** ** The network: class [iRevNet] *)

(** [l.count(v)] on a list of integers. *)
Definition count (v : Z) (l : list Z) : Z :=
  Z.of_nat (length (filter (Z.eqb v) l)).

(** [[v] * n]: an empty list when [n <= 0]. *)
Definition times (v : Z) (n : Z) : list Z := repeat v (Z.to_nat n).

(** The stage loop of [irevnet_stack]: [zip] stops at the shortest of the
    three lists. *)
Fixpoint expand (nChannels nBlocks nStrides : list Z)
    (strides channels : list Z) : list Z * list Z :=
  match nChannels, nBlocks, nStrides with
  | channel :: nChannels', depth :: nBlocks', stride :: nStrides' =>
      expand nChannels' nBlocks' nStrides'
        (strides ++ ([stride] ++ times 1 (depth - 1)))
        (channels ++ times channel depth)
  | _, _, _ => (strides, channels)
  end.

Module iRevNet.
Section Net.
Context {FW : Framework}.
(** What the classification head returns (the logits). *)
Variable Logits : Type.

Record t : Type := mk {
  ds : Z;
  init_ds : nat;
  in_ch : Z;
  nBlocks : list Z;
  first : bool;
  init_psi : Z;
  stack : list irevnet_block.t;
  bn1 : layer;
  linear : Z * Z;
  (** [bn1], [relu], [avg_pool2d], [view] and [linear] with their learned
      parameters, applied to the bijective features. *)
  head : Tensor -> result Logits
}.

(** The block loop of [irevnet_stack].  [i] counts the blocks built so
    far, [first] is the field [self.first], [block_list] the module list.
    The result carries the value [self.first] is left with. *)
Fixpoint build (seq : nat -> list layer -> Tensor -> Tensor)
    (channels strides : list Z) (dropout_rate : Q) (affineBN : bool)
    (mult : Z) (i : nat) (in_ch : Z) (first : bool)
    (block_list : list irevnet_block.t)
  : result (list irevnet_block.t * bool) :=
  match channels, strides with
  | channel :: channels', stride :: strides' =>
      do b <- irevnet_block.init (seq i) in_ch channel stride first
                dropout_rate affineBN mult;
      build seq channels' strides' dropout_rate affineBN mult
            (S i) (2 * channel) false (block_list ++ [b])
  | _, _ => Ok (block_list, first)
  end.

(** [irevnet_stack]: create the stack of blocks. *)
Definition irevnet_stack (seq : nat -> list layer -> Tensor -> Tensor)
    (first : bool) (nChannels nBlocks nStrides : list Z)
    (dropout_rate : Q) (affineBN : bool) (in_ch : Z) (mult : Z)
  : result (list irevnet_block.t * bool) :=
  let '(strides, channels) := expand nChannels nBlocks nStrides [] [] in
  build seq channels strides dropout_rate affineBN mult 0 in_ch first [].

(** [in_shape[i]] for [in_shape] possibly [None]. *)
Definition subscript (in_shape : option (list Z)) (i : nat) : result Z :=
  match in_shape with
  | None => Raise TypeError
  | Some l => match nth_error l i with
              | Some v => Ok v
              | None => Raise IndexError
              end
  end.

(** [if not nChannels: nChannels = [...]]: [None] and the empty list are
    both falsy. *)
Definition resolve_nChannels (nChannels : option (list Z)) (in_ch : Z)
  : list Z :=
  match nChannels with
  | None | Some [] =>
      [in_ch / 2; in_ch / 2 * 4; in_ch / 2 * 4 ^ 2; in_ch / 2 * 4 ^ 3]
  | Some l => l
  end.

(** [__init__].  [init_ds] is a natural number: with a negative one Python
    leaves integer arithmetic at [2**init_ds]. *)
Definition init (seq : nat -> list layer -> Tensor -> Tensor)
    (mk_head : layer -> Z -> Z * Z -> Tensor -> result Logits)
    (nBlocks nStrides : list Z) (nClasses : Z)
    (nChannels : option (list Z)) (init_ds : nat) (dropout_rate : Q)
    (affineBN : bool) (in_shape : option (list Z)) (mult : Z) : result t :=
  do h <- subscript in_shape 2;
  let ds := h / 2 ^ (count 2 nStrides + Z.of_nat init_ds / 2) in
  do c <- subscript in_shape 0;
  let in_ch := c * 2 ^ Z.of_nat init_ds in
  let nChannels := resolve_nChannels nChannels in_ch in
  do sf <- irevnet_stack seq true nChannels nBlocks nStrides
             dropout_rate affineBN in_ch mult;
  do bn1 <- new_BatchNorm2d (last nChannels 0 * 2) true;
  do linear <- new_Linear (last nChannels 0 * 2) nClasses;
  Ok {| ds := ds; init_ds := init_ds; in_ch := in_ch; nBlocks := nBlocks;
        first := snd sf; init_psi := Z.of_nat init_ds; stack := fst sf;
        bn1 := bn1; linear := linear; head := mk_head bn1 ds linear |}.

(** A Python slice bound [n] on an axis of length [len]. *)
Definition bound (n : Z) (len : nat) : nat :=
  Z.to_nat (if n <? 0 then Z.max (Z.of_nat len + n) 0 else n).

Fixpoint forward_loop (blocks : list irevnet_block.t)
    (out : Tensor * Tensor) : result (Tensor * Tensor) :=
  match blocks with
  | [] => Ok out
  | block :: blocks' =>
      do out <- irevnet_block.forward block out;
      forward_loop blocks' out
  end.

(** [forward]: the logits and the bijective features. *)
Definition forward (self : t) (x : Tensor) : result (Logits * Tensor) :=
  let n := in_ch self / 2 in
  let x := if negb (init_ds self =? 0)%nat
           then psi_forward (init_psi self) x else x in
  let out := (firstn (bound n (length x)) x,
              skipn (bound n (length x)) x) in
  do out <- forward_loop (stack self) out;
  let out_bij := merge (fst out) (snd out) in
  do out <- head self out_bij;
  Ok (out, out_bij).

(** [for i in range(len(self.stack)): out = self.stack[-1-i].inverse(out)] *)
Fixpoint inverse_loop (stack : list irevnet_block.t) (range : list nat)
    (out : Tensor * Tensor) : result (Tensor * Tensor) :=
  match range with
  | [] => Ok out
  | i :: range' =>
      match nth_error stack (length stack - 1 - i) with
      | Some block =>
          do out <- irevnet_block.inverse block out;
          inverse_loop stack range' out
      | None => Raise IndexError
      end
  end.

(** [inverse]: from the bijective features back to the input. *)
Definition inverse (self : t) (out_bij : Tensor) : result Tensor :=
  do out <- split out_bij;
  do out <- inverse_loop (stack self) (seq 0 (length (stack self))) out;
  let out := merge (fst out) (snd out) in
  Ok (if negb (init_ds self =? 0)%nat
      then psi_inverse (init_psi self) out else out).

End Net.

Arguments ds {FW Logits} _.
Arguments init_ds {FW Logits} _.
Arguments in_ch {FW Logits} _.
Arguments nBlocks {FW Logits} _.
Arguments first {FW Logits} _.
Arguments init_psi {FW Logits} _.
Arguments stack {FW Logits} _.
Arguments bn1 {FW Logits} _.
Arguments linear {FW Logits} _.
Arguments head {FW Logits} _ _.
Arguments init {FW Logits} _ _ _ _ _ _ _ _ _ _ _.
Arguments forward {FW Logits} _ _.
Arguments inverse {FW Logits} _ _.
End iRevNet.

(** ** The behaviour as the specification words it

    Second definitions, written from the prose of the specification and
    compared below with the ones translated from the source. *)

Module Described.
Section Described.
Context {FW : Framework}.

(** "applies the spatial permutation [...] if stride=2", else unchanged. *)
Definition permuted (b : irevnet_block.t) (t : Tensor) : Tensor :=
  if irevnet_block.stride b =? 2
  then psi_forward (irevnet_block.psi b) t else t.

Definition unpermuted (b : irevnet_block.t) (t : Tensor) : Tensor :=
  if irevnet_block.stride b =? 2
  then psi_inverse (irevnet_block.psi b) t else t.

(** "computes Fx2 = F(x2); [...] returns x2_after and
    y1 = Fx2 + x1_after". *)
Definition coupling (b : irevnet_block.t) (x1 x2 : Tensor)
  : result (Tensor * Tensor) :=
  let Fx2 := irevnet_block.bottleneck_block b x2 in
  let x1_after := permuted b x1 in
  let x2_after := permuted b x2 in
  match tadd Fx2 x1_after with
  | Ok y1 => Ok (x2_after, y1)
  | Raise e => Raise e
  end.

(** "it first merges (x1,x2) into one tensor, pads extra zero channels,
    and re-splits". *)
Definition padded_pair (b : irevnet_block.t) (x1 x2 : Tensor)
  : result (Tensor * Tensor) :=
  split (merge x1 x2 ++ repeat czero (Z.to_nat (irevnet_block.pad b))).

Definition forward (b : irevnet_block.t) (x1 x2 : Tensor)
  : result (Tensor * Tensor) :=
  if irevnet_block.pads b
  then match padded_pair b x1 x2 with
       | Ok (p1, p2) => coupling b p1 p2
       | Raise e => Raise e
       end
  else coupling b x1 x2.

(** "undo spatial permutation on x2 if stride=2, compute Fx2 = -F(x2),
    recover x1 = Fx2 + y1, undo permutation on x1 if stride=2, then if
    padding was applied on the forward pass, merge/truncate/re-split". *)
Definition inverse (b : irevnet_block.t) (x2 y1 : Tensor)
  : result (Tensor * Tensor) :=
  let x2_orig := unpermuted b x2 in
  let Fx2 := tneg (irevnet_block.bottleneck_block b x2_orig) in
  match tadd Fx2 y1 with
  | Raise e => Raise e
  | Ok x1 =>
      let x1_orig := unpermuted b x1 in
      if irevnet_block.pads b
      then let m := merge x1_orig x2_orig in
           split (firstn (length m - Z.to_nat (irevnet_block.pad b)) m)
      else Ok (x1_orig, x2_orig)
  end.

(** The arguments of one [_block(...)] call. *)
Record call : Type := mk_call {
  c_in : Z;
  c_out : Z;
  c_stride : Z;
  c_first : bool
}.

(** Number of blocks in the stages before stage [k]. *)
Fixpoint offset (nBlocks : list Z) (k : nat) : nat :=
  match k, nBlocks with
  | S k', depth :: nBlocks' => Z.to_nat depth + offset nBlocks' k'
  | _, _ => O
  end.

(** The per-block schedule of section 4.2: block [j] of stage [k] has the
    stage's channel count, the stage's stride when it is the first block
    of the stage and stride 1 otherwise; the running input channel count
    doubles the previous output channel count; only block 0 is "first". *)
Definition schedule_ok (nChannels nBlocks nStrides : list Z)
    (calls : list call) : Prop :=
  length calls = offset nBlocks (length nBlocks) /\
  (forall k channel depth stride j,
      nth_error nChannels k = Some channel ->
      nth_error nBlocks k = Some depth ->
      nth_error nStrides k = Some stride ->
      (j < Z.to_nat depth)%nat ->
      exists c, nth_error calls (offset nBlocks k + j) = Some c /\
                c_out c = channel /\
                c_stride c = (if (j =? 0)%nat then stride else 1)) /\
  (forall i a b,
      nth_error calls i = Some a -> nth_error calls (S i) = Some b ->
      c_in b = 2 * c_out a) /\
  (forall i a, nth_error calls i = Some a ->
               c_first a = true <-> i = O).

(** The stages [zip] yields from the three schedule lists. *)
Definition stages (nChannels nBlocks nStrides : list Z)
  : list (Z * (Z * Z)) :=
  combine nChannels (combine nBlocks nStrides).

(** The constructor calls made for a per-block list of
    [(channel, stride)], from a running input channel count and flag. *)
Fixpoint calls_of (pairs : list (Z * Z)) (in_ch : Z) (first : bool)
  : list call :=
  match pairs with
  | [] => []
  | (channel, stride) :: pairs' =>
      mk_call in_ch channel stride first :: calls_of pairs' (2 * channel) false
  end.

(** The per-block [(channel, stride)] list of one stage: the stage's
    stride for its first block, stride 1 for the others. *)
Definition stage_pairs (st : Z * (Z * Z)) : list (Z * Z) :=
  (fst st, snd (snd st))
  :: repeat (fst st, 1) (Z.to_nat (fst (snd st)) - 1).

(** The blocks are the ones the calls construct, in order. *)
Definition built_from (seq : nat -> list layer -> Tensor -> Tensor)
    (dropout_rate : Q) (affineBN : bool) (mult : Z)
    (calls : list call) (blocks : list irevnet_block.t) : Prop :=
  length blocks = length calls /\
  forall i c, nth_error calls i = Some c ->
    exists b, nth_error blocks i = Some b /\
      irevnet_block.init (seq i) (c_in c) (c_out c) (c_stride c)
        (c_first c) dropout_rate affineBN mult = Ok b.

(** What section 4.2 asks of [build] on a schedule triple. *)
Definition stack_as_described
    (seq : nat -> list layer -> Tensor -> Tensor)
    (nChannels nBlocks nStrides : list Z) (dropout_rate : Q)
    (affineBN : bool) (in_ch mult : Z) : Prop :=
  exists blocks first calls,
    iRevNet.irevnet_stack seq true nChannels nBlocks nStrides
      dropout_rate affineBN in_ch mult = Ok (blocks, first) /\
    built_from seq dropout_rate affineBN mult calls blocks /\
    schedule_ok nChannels nBlocks nStrides calls.

(** "applies every block's inverse", in the order of the list given. *)
Fixpoint inverse_all (blocks : list irevnet_block.t) (out : Tensor * Tensor)
  : result (Tensor * Tensor) :=
  match blocks with
  | [] => Ok out
  | b :: blocks' =>
      match irevnet_block.inverse b out with
      | Ok out' => inverse_all blocks' out'
      | Raise e => Raise e
      end
  end.

(** "splits bijective_features, applies every block's inverse in strictly
    reversed order, merges, and undoes the initial spatial permutation if
    one was applied". *)
Definition net_inverse {Logits : Type} (net : iRevNet.t Logits)
    (bijective_features : Tensor) : result Tensor :=
  match split bijective_features with
  | Raise e => Raise e
  | Ok halves =>
      match inverse_all (rev (iRevNet.stack net)) halves with
      | Raise e => Raise e
      | Ok (x1, x2) =>
          let merged := merge x1 x2 in
          Ok (match iRevNet.init_ds net with
              | O => merged
              | S _ => psi_inverse (iRevNet.init_psi net) merged
              end)
      end
  end.

(** "the tensor that was split off for the forward residual stream": the
    input, after the initial permutation when there is one. *)
Definition split_off {Logits : Type} (net : iRevNet.t Logits) (x : Tensor)
  : Tensor :=
  match iRevNet.init_ds net with
  | O => x
  | S _ => psi_forward (iRevNet.init_psi net) x
  end.

End Described.
End Described.

(** ** Valid configurations and inputs *)

Section Validity.
Context {FW : Framework}.

(** The pair the transform F and the coupling see: the input pair itself,
    or the halves of the padded merge when the block pads. *)
Definition coupled_input (b : irevnet_block.t) (x : Tensor * Tensor)
  : Tensor * Tensor :=
  if irevnet_block.pads b
  then let p := inj_pad_forward (irevnet_block.inj_pad b)
                  (merge (fst x) (snd x)) in
       (firstn (Nat.div2 (length p)) p, skipn (Nat.div2 (length p)) p)
  else x.

(** A block and an input pair fit: the two halves have matching shape; a
    padding block pads by a positive, even number of channels (so that the
    padded tensor splits evenly); and F returns as many channels as the
    half it is added to. *)
Definition block_ok (b : irevnet_block.t) (x : Tensor * Tensor) : Prop :=
  length (fst x) = length (snd x) /\
  (irevnet_block.pads b = true ->
   0 < irevnet_block.inj_pad b /\ Z.even (irevnet_block.inj_pad b) = true) /\
  length (irevnet_block.bottleneck_block b (snd (coupled_input b x)))
  = length (Described.permuted b (fst (coupled_input b x))).

(** The values the layer constructors of one block accept: a nonzero
    [mult], no negative channel count (the input half, the bottleneck width
    [out_ch // mult], the output) and a dropout probability in [0, 1]. *)
Definition buildable (in_ch out_ch stride : Z) (dropout_rate : Q) (mult : Z)
  : bool :=
  let pad := 2 * out_ch - in_ch in
  let in_ch := if negb (pad =? 0) && (stride =? 1) then out_ch * 2
               else in_ch in
  negb (mult =? 0) && (0 <=? in_ch / 2) && (0 <=? out_ch / mult)
  && (0 <=? out_ch) && Qle_bool 0 dropout_rate && Qle_bool dropout_rate 1.

(** The values the layer constructors accept for a whole schedule: a
    positive [mult], a non-negative input channel count, non-negative
    channel counts and a dropout probability in [0, 1]. *)
Definition accepted (channels : list Z) (in_ch mult : Z) (dropout_rate : Q)
  : Prop :=
  0 < mult /\ 0 <= in_ch /\ Forall (fun c => 0 <= c) channels /\
  Qle_bool 0 dropout_rate = true /\ Qle_bool dropout_rate 1 = true.

(** The block object [b] with its transform read as the function [f]. *)
Definition with_transform (b : irevnet_block.t) (f : Tensor -> Tensor)
  : irevnet_block.t :=
  {| irevnet_block.first := irevnet_block.first b;
     irevnet_block.pad := irevnet_block.pad b;
     irevnet_block.stride := irevnet_block.stride b;
     irevnet_block.inj_pad := irevnet_block.inj_pad b;
     irevnet_block.psi := irevnet_block.psi b;
     irevnet_block.layers := irevnet_block.layers b;
     irevnet_block.bottleneck_block := f |}.

(** The pair the stack starts from: the two slices of the (permuted)
    input at [n = in_ch // 2]. *)
Definition first_pair {Logits : Type} (net : iRevNet.t Logits) (x : Tensor)
  : Tensor * Tensor :=
  let x := Described.split_off net x in
  let k := iRevNet.bound (iRevNet.in_ch net / 2) (length x) in
  (firstn k x, skipn k x).

(** The same for halves that need not match.  A padding block restores the
    pair when its first half has the size [split] gives a first half; any
    other block only needs F to return as many channels as the half it is
    added to. *)
Definition block_fits (b : irevnet_block.t) (x : Tensor * Tensor) : Prop :=
  (irevnet_block.pads b = true ->
   0 < irevnet_block.inj_pad b /\
   length (fst x) = Nat.div2 (length (fst x) + length (snd x))) /\
  length (irevnet_block.bottleneck_block b (snd (coupled_input b x)))
  = length (Described.permuted b (fst (coupled_input b x))).

(** Every block of the stack fits the pair that reaches it, and the final
    pair can be split again after its merge. *)
Fixpoint stack_fits (blocks : list irevnet_block.t) (x : Tensor * Tensor)
  : Prop :=
  match blocks with
  | [] => length (fst x) = Nat.div2 (length (fst x) + length (snd x))
  | b :: blocks' =>
      block_fits b x /\
      match irevnet_block.forward b x with
      | Ok y => stack_fits blocks' y
      | Raise _ => False
      end
  end.

(** A network and an input fit: the stack fits the pair the input is
    sliced into, and the classification head accepts the bijective
    features. *)
Definition net_fits {Logits : Type} (net : iRevNet.t Logits) (x : Tensor)
  : Prop :=
  stack_fits (iRevNet.stack net) (first_pair net x) /\
  forall y, iRevNet.forward_loop (iRevNet.stack net) (first_pair net x) = Ok y ->
            exists logits,
              iRevNet.head net (merge (fst y) (snd y)) = Ok logits.

End Validity.

(** ** The layers' state

    Evaluating [self.bottleneck_block(x2)] runs the layers of the block,
    and the framework keeps state in them besides the learned parameters:
    the mode flag [training] of every module, the running statistics and
    the counter [num_batches_tracked] of a [BatchNorm2d]; a [Dropout] in
    training mode draws from the generator.  The definitions above read the
    transform in one state of the layers, as a function of its input.
    Here that state is explicit: [forward] and [inverse] are translated
    again, now returning, next to what they return or raise, the object and
    the store they leave behind. *)

Module Stateful.
Section Stateful.
Context {FW : Framework}.
(** The framework's store: mode, buffers and generator. *)
Variable Store : Type.

(** A block object: its attributes, and the call [self.bottleneck_block(t)]
    as the framework evaluates it in a store: what it returns or raises,
    and the store it leaves. *)
Record t : Type := mk {
  self : irevnet_block.t;
  call : Store -> Tensor -> result Tensor * Store
}.

(** [__init__]: the layers are evaluated by the framework's [run]. *)
Definition init (seq : list layer -> Tensor -> Tensor)
    (run : list layer -> Store -> Tensor -> result Tensor * Store)
    (in_ch out_ch stride : Z) (first : bool) (dropout_rate : Q)
    (affineBN : bool) (mult : Z) : result t :=
  do b <- irevnet_block.init seq in_ch out_ch stride first dropout_rate
            affineBN mult;
  Ok {| self := b; call := run (irevnet_block.layers b) |}.

(** [forward], with the object and the store after it. *)
Definition forward (b : t) (s : Store) (x : Tensor * Tensor)
  : result (Tensor * Tensor) * (t * Store) :=
  match (if irevnet_block.pads (self b)
         then split (inj_pad_forward (irevnet_block.inj_pad (self b))
                       (merge (fst x) (snd x)))
         else Ok x) with
  | Raise e => (Raise e, (b, s))
  | Ok x =>
      let x1 := fst x in
      let x2 := snd x in
      let (Fx2, s) := call b s x2 in
      match Fx2 with
      | Raise e => (Raise e, (b, s))
      | Ok Fx2 =>
          let x1 := if irevnet_block.stride (self b) =? 2
                    then psi_forward (irevnet_block.psi (self b)) x1
                    else x1 in
          let x2 := if irevnet_block.stride (self b) =? 2
                    then psi_forward (irevnet_block.psi (self b)) x2
                    else x2 in
          (do y1 <- tadd Fx2 x1; Ok (x2, y1), (b, s))
      end
  end.

(** [inverse], with the object and the store after it. *)
Definition inverse (b : t) (s : Store) (x : Tensor * Tensor)
  : result (Tensor * Tensor) * (t * Store) :=
  let x2 := fst x in
  let y1 := snd x in
  let x2 := if irevnet_block.stride (self b) =? 2
            then psi_inverse (irevnet_block.psi (self b)) x2 else x2 in
  let (Fx2, s) := call b s x2 in
  match Fx2 with
  | Raise e => (Raise e, (b, s))
  | Ok Fx2 =>
      (do x1 <- tadd (tneg Fx2) y1;
       let x1 := if irevnet_block.stride (self b) =? 2
                 then psi_inverse (irevnet_block.psi (self b)) x1 else x1 in
       if irevnet_block.pads (self b)
       then split (inj_pad_inverse (irevnet_block.inj_pad (self b))
                     (merge x1 x2))
       else Ok (x1, x2),
       (b, s))
  end.

(** In store [s] the layers of [b], evaluated on [x], return what the
    function [bottleneck_block] of its attributes returns and are left as
    they are: the evaluation mode, on an input the layers accept. *)
Definition settled (b : t) (s : Store) (x : Tensor) : Prop :=
  call b s x = (Ok (irevnet_block.bottleneck_block (self b) x), s).

(** The same along an inversion through the blocks, in the order given:
    each block is settled on the tensor its transform is evaluated on. *)
Fixpoint settled_back (blocks : list t) (s : Store) (out : Tensor * Tensor)
  : Prop :=
  match blocks with
  | [] => True
  | b :: blocks' =>
      settled b s (Described.unpermuted (self b) (fst out)) /\
      match irevnet_block.inverse (self b) out with
      | Ok out' => settled_back blocks' s out'
      | Raise _ => True
      end
  end.

(** The network object: its attributes and the module list [self.stack]. *)
Record network (Logits : Type) : Type := mk_network {
  attributes : iRevNet.t Logits;
  stack : list t
}.
Arguments attributes {Logits} _.
Arguments stack {Logits} _.

(** The block objects of a stack, block [i] evaluated by [run i]. *)
Fixpoint attach
    (run : nat -> list layer -> Store -> Tensor -> result Tensor * Store)
    (i : nat) (blocks : list irevnet_block.t) : list t :=
  match blocks with
  | [] => []
  | b :: blocks' =>
      {| self := b; call := run i (irevnet_block.layers b) |}
      :: attach run (S i) blocks'
  end.

(** [iRevNet.__init__]. *)
Definition net_init {Logits : Type}
    (seq : nat -> list layer -> Tensor -> Tensor)
    (run : nat -> list layer -> Store -> Tensor -> result Tensor * Store)
    (mk_head : layer -> Z -> Z * Z -> Tensor -> result Logits)
    (nBlocks nStrides : list Z) (nClasses : Z)
    (nChannels : option (list Z)) (init_ds : nat) (dropout_rate : Q)
    (affineBN : bool) (in_shape : option (list Z)) (mult : Z)
  : result (network Logits) :=
  do net <- iRevNet.init seq mk_head nBlocks nStrides nClasses nChannels
              init_ds dropout_rate affineBN in_shape mult;
  Ok {| attributes := net; stack := attach run 0 (iRevNet.stack net) |}.

(** The module list with the object at position [i] replaced. *)
Fixpoint put (l : list t) (i : nat) (b : t) : list t :=
  match l, i with
  | [], _ => []
  | _ :: l', O => b :: l'
  | a :: l', S i' => a :: put l' i' b
  end.

(** The loop of [iRevNet.inverse]; the block object an [inverse] call
    leaves is the one the module list holds afterwards. *)
Fixpoint inverse_loop (blocks : list t) (range : list nat) (s : Store)
    (out : Tensor * Tensor)
  : result (Tensor * Tensor) * (list t * Store) :=
  match range with
  | [] => (Ok out, (blocks, s))
  | i :: range' =>
      match nth_error blocks (length blocks - 1 - i) with
      | Some block =>
          let '(r, (block, s)) := inverse block s out in
          let blocks := put blocks (length blocks - 1 - i) block in
          match r with
          | Ok out => inverse_loop blocks range' s out
          | Raise e => (Raise e, (blocks, s))
          end
      | None => (Raise IndexError, (blocks, s))
      end
  end.

(** [iRevNet.inverse], with the object and the store after it. *)
Definition net_inverse {Logits : Type} (net : network Logits) (s : Store)
    (out_bij : Tensor) : result Tensor * (network Logits * Store) :=
  match split out_bij with
  | Raise e => (Raise e, (net, s))
  | Ok out =>
      let '(r, (blocks, s)) :=
        inverse_loop (stack net) (seq 0 (length (stack net))) s out in
      let net := {| attributes := attributes net; stack := blocks |} in
      (do out <- r;
       let out := merge (fst out) (snd out) in
       Ok (if negb (iRevNet.init_ds (attributes net) =? 0)%nat
           then psi_inverse (iRevNet.init_psi (attributes net)) out
           else out),
       (net, s))
  end.

End Stateful.

Arguments self {FW Store} _.
Arguments call {FW Store} _ _ _.
Arguments attributes {FW Store Logits} _.
Arguments stack {FW Store Logits} _.
Arguments init {FW Store} _ _ _ _ _ _ _ _ _.
Arguments forward {FW Store} _ _ _.
Arguments inverse {FW Store} _ _ _.
Arguments settled {FW Store} _ _ _.
Arguments settled_back {FW Store} _ _ _.
Arguments attach {FW Store} _ _ _.
Arguments net_init {FW Store Logits} _ _ _ _ _ _ _ _ _ _ _ _.
Arguments put {FW Store} _ _ _.
Arguments inverse_loop {FW Store} _ _ _ _.
Arguments net_inverse {FW Store Logits} _ _ _.
End Stateful.

(** ** A concrete framework: sampled signals

    Planes are integer-valued signals over the natural numbers, added
    pointwise.  [psi] with block size [bs] trades resolution for depth: each
    plane is taken apart into its [n = bs*bs] phases (positions [n*i + k] go
    to plane [k]), and [inverse] interleaves them again. *)

Module Signal.
Definition plane : Type := nat -> Z.
Definition add (a b : plane) : plane := fun i => a i + b i.
Definition neg (a : plane) : plane := fun i => - a i.
Definition zero : plane := fun _ => 0.

Definition phases (n : nat) (c : plane) : list plane :=
  map (fun k i => c (n * i + k)%nat) (seq 0 n).

Definition interleave (n : nat) (ps : list plane) : plane :=
  fun i => nth (i mod n) ps zero (i / n)%nat.

Fixpoint unchunk (n fuel : nat) (t : list plane) : list plane :=
  match fuel with
  | O => []
  | S fuel' =>
      match t with
      | [] => []
      | _ => interleave n (firstn n t) :: unchunk n fuel' (skipn n t)
      end
  end.

Definition psi_forward (bs : Z) (t : list plane) : list plane :=
  match Z.to_nat (bs * bs) with
  | O => t
  | n => flat_map (phases n) t
  end.

Definition psi_inverse (bs : Z) (t : list plane) : list plane :=
  match Z.to_nat (bs * bs) with
  | O => t
  | n => unchunk n (length t) t
  end.

(** The constant plane of value [v]. *)
Definition const (v : Z) : plane := fun _ => v.

(** A transform that keeps the channel count: every plane is doubled. *)
Definition double (t : list plane) : list plane := map (fun c => add c c) t.

(** A transform to [n] channels: output plane [k] is input plane
    [k mod len] shifted by [k]. *)
Definition spread (n : nat) (t : list plane) : list plane :=
  map (fun k => add (nth (k mod length t) t zero) (const (Z.of_nat k)))
      (seq 0 n).
End Signal.

(** * Properties *)

(** ** The sampled-signal framework is a framework *)

Lemma phases_length n c : length (Signal.phases n c) = n.
Proof. unfold Signal.phases. now rewrite length_map, length_seq. Qed.

Lemma interleave_phases n c :
  n <> O -> Signal.interleave n (Signal.phases n c) = c.
Proof.
  intros Hn. apply functional_extensionality. intros i.
  unfold Signal.interleave, Signal.phases.
  assert (Hlt : (i mod n < n)%nat) by (apply Nat.mod_upper_bound; exact Hn).
  rewrite (nth_indep _ Signal.zero ((fun k j => c (n * j + k)%nat) O))
    by (now rewrite length_map, length_seq).
  rewrite (map_nth (fun k j => c (n * j + k)%nat)), seq_nth by exact Hlt.
  simpl. f_equal. symmetry. apply Nat.div_mod_eq.
Qed.

Lemma unchunk_flat_map n fuel t :
  n <> O -> (length t <= fuel)%nat ->
  Signal.unchunk n fuel (flat_map (Signal.phases n) t) = t.
Proof.
  intros Hn. revert fuel. induction t as [|c t IH]; intros fuel Hf.
  - destruct fuel; reflexivity.
  - destruct fuel as [|fuel]; [simpl in Hf; lia|].
    simpl flat_map. simpl Signal.unchunk.
    destruct (Signal.phases n c ++ flat_map (Signal.phases n) t) eqn:E.
    + apply (f_equal (@length _)) in E.
      rewrite length_app, phases_length in E. simpl in E. lia.
    + rewrite <- E.
      rewrite firstn_app, skipn_app, phases_length, Nat.sub_diag.
      rewrite firstn_all2, skipn_all2 by (rewrite phases_length; lia).
      simpl. rewrite app_nil_r, interleave_phases by exact Hn.
      f_equal. apply IH. simpl in Hf. lia.
Qed.

Lemma signal_psi_inverse_forward bs t :
  Signal.psi_inverse bs (Signal.psi_forward bs t) = t.
Proof.
  unfold Signal.psi_inverse, Signal.psi_forward.
  destruct (Z.to_nat (bs * bs)) as [|n] eqn:E; [reflexivity|].
  apply unchunk_flat_map; [discriminate|].
  rewrite (flat_map_constant_length (c := S n)).
  - lia.
  - intros; apply phases_length.
Qed.

Lemma signal_add_assoc (a b c : Signal.plane) :
  Signal.add a (Signal.add b c) = Signal.add (Signal.add a b) c.
Proof. apply functional_extensionality; intros i; unfold Signal.add; lia. Qed.

Lemma signal_add_neg_l (a : Signal.plane) :
  Signal.add (Signal.neg a) a = Signal.zero.
Proof.
  apply functional_extensionality; intros i.
  unfold Signal.add, Signal.neg, Signal.zero; lia.
Qed.

Lemma signal_add_zero_l (a : Signal.plane) : Signal.add Signal.zero a = a.
Proof. apply functional_extensionality; intros i; reflexivity. Qed.

Definition signals : Framework := {|
  Chan := Signal.plane;
  cadd := Signal.add;
  cneg := Signal.neg;
  czero := Signal.zero;
  cadd_assoc := signal_add_assoc;
  cadd_neg_l := signal_add_neg_l;
  cadd_zero_l := signal_add_zero_l;
  psi_forward := Signal.psi_forward;
  psi_inverse := Signal.psi_inverse;
  psi_inverse_forward := signal_psi_inverse_forward
|}.

(** Parameters for concrete networks over sampled signals: every
    [nn.Sequential] doubles its input, the head returns no logits. *)
Definition demo_seq : nat -> list layer -> @Tensor signals -> @Tensor signals :=
  fun _ _ => Signal.double.

Definition demo_head : layer -> Z -> Z * Z -> @Tensor signals -> result unit :=
  fun _ _ _ _ => Ok tt.

(** Sequentials that return as many channels as their last convolution is
    built to return. *)
Definition wide_seq : nat -> list layer -> @Tensor signals -> @Tensor signals :=
  fun _ layers t =>
    match last layers ReLU with
    | Conv2d _ o _ => Signal.spread (Z.to_nat o) t
    | _ => t
    end.

(** A store for concrete networks: the mode flag shared by all modules
    ([train()] and [eval()] set it everywhere), and for each block the
    counter [num_batches_tracked] of its [BatchNorm2d] layers, which are
    all evaluated once per call of the block's transform. *)
Record demo_store : Type := {
  training : bool;
  num_batches_tracked : nat -> Z
}.

(** A module is constructed in training mode, its counters at zero. *)
Definition fresh : demo_store :=
  {| training := true; num_batches_tracked := fun _ => 0 |}.

(** [model.eval()] *)
Definition eval (s : demo_store) : demo_store :=
  {| training := false; num_batches_tracked := num_batches_tracked s |}.

(** The layers of block [i] evaluated in a store.  In evaluation mode they
    are the function [wide_seq] and leave the store alone.  In training
    mode batch normalisation uses the statistics of the batch, which is
    another function of the input ([wide_seq] after doubling, here), and
    every [BatchNorm2d] counts the batch. *)
Definition demo_run (i : nat) (layers : list layer) (s : demo_store)
    (x : @Tensor signals) : result (@Tensor signals) * demo_store :=
  if training s
  then (Ok (wide_seq i layers (Signal.double x)),
        {| training := true;
           num_batches_tracked :=
             fun j => if (j =? i)%nat then num_batches_tracked s j + 1
                      else num_batches_tracked s j |})
  else (Ok (wide_seq i layers x), s).

(** The ramp signal 0, 1, 2, ... *)
Definition ramp : Signal.plane := fun i => Z.of_nat i.

(** ** Tensors *)

Section TensorFacts.
Context {FW : Framework}.

Lemma div2_double_len (a b : Tensor) :
  length a = length b -> Nat.div2 (length (a ++ b)) = length a.
Proof.
  intros H. rewrite length_app, <- H.
  replace (length a + length a)%nat with (2 * length a)%nat by lia.
  apply Nat.div2_double.
Qed.

Lemma even_double_len (a b : Tensor) :
  length a = length b -> Nat.even (length (a ++ b)) = true.
Proof.
  intros H. rewrite length_app, <- H.
  replace (length a + length a)%nat with (2 * length a)%nat by lia.
  rewrite Nat.even_mul. reflexivity.
Qed.

(** [split] undoes [merge] when the first part has the size of the first
    half: equal parts, or a second part larger by one channel. *)
Lemma split_merge_half (a b : Tensor) :
  length a = Nat.div2 (length a + length b) -> split (merge a b) = Ok (a, b).
Proof.
  intros H. unfold split, merge. rewrite length_app, <- H.
  rewrite firstn_app, skipn_app, Nat.sub_diag, firstn_all, skipn_all.
  simpl. rewrite app_nil_r. reflexivity.
Qed.

Lemma split_merge_eq (a b : Tensor) :
  length a = length b -> split (merge a b) = Ok (a, b).
Proof.
  intros H. apply split_merge_half. rewrite <- H.
  replace (length a + length a)%nat with (2 * length a)%nat by lia.
  now rewrite Nat.div2_double.
Qed.

Lemma split_inv (t a b : Tensor) :
  split t = Ok (a, b) ->
  merge a b = t /\
  a = firstn (Nat.div2 (length t)) t /\ b = skipn (Nat.div2 (length t)) t.
Proof.
  unfold split, merge. intros H. injection H as <- <-.
  split; [apply firstn_skipn|]. split; reflexivity.
Qed.

Lemma zip_add_length (a b : Tensor) :
  length a = length b -> length (zip_add a b) = length b.
Proof.
  revert b. induction a as [|x a IH]; intros [|y b] H; simpl in *;
    try discriminate; auto.
Qed.

Lemma cadd_cancel (f x : Chan) : cadd (cneg f) (cadd f x) = x.
Proof. now rewrite cadd_assoc, cadd_neg_l, cadd_zero_l. Qed.

Lemma zip_add_cancel (f x : Tensor) :
  length f = length x -> zip_add (tneg f) (zip_add f x) = x.
Proof.
  revert x. induction f as [|c f IH]; intros [|y x] H; simpl in *;
    try discriminate; auto.
  rewrite cadd_cancel, IH by lia. reflexivity.
Qed.

Lemma tadd_same (a b : Tensor) :
  length a = length b -> tadd a b = Ok (zip_add a b).
Proof. intros H. unfold tadd. rewrite H, Nat.eqb_refl. reflexivity. Qed.

Lemma tneg_length (t : Tensor) : length (tneg t) = length t.
Proof. apply length_map. Qed.

Lemma inj_pad_inverse_forward (p : Z) (t : Tensor) :
  inj_pad_inverse p (inj_pad_forward p t) = t.
Proof.
  unfold inj_pad_inverse, inj_pad_forward.
  rewrite length_app, repeat_length, Nat.add_sub.
  rewrite firstn_app, Nat.sub_diag, firstn_all. simpl. apply app_nil_r.
Qed.

End TensorFacts.

(** ** Split and merge *)

Section SplitMerge.
Context {FW : Framework}.

(** C8: [split] and [merge] are mutual inverses.  A tensor with an even
    channel count is split into its first and second half, in order, and
    merging the halves gives the tensor back; merging two tensors of equal
    channel count and splitting the result gives back the two tensors. *)
Theorem split_merge_mutual_inverses (t a b : Tensor) :
  Nat.even (length t) = true ->
  length a = length b ->
  (exists x1 x2, split t = Ok (x1, x2) /\
                 x1 = firstn (Nat.div2 (length t)) t /\
                 x2 = skipn (Nat.div2 (length t)) t /\
                 merge x1 x2 = t) /\
  split (merge a b) = Ok (a, b).
Proof.
  intros Ht Hab. split.
  - unfold split. do 2 eexists.
    repeat split; try reflexivity. apply firstn_skipn.
  - apply split_merge_eq; exact Hab.
Qed.

End SplitMerge.

Lemma split_merge_mutual_inverses_witness :
  let t : @Tensor signals :=
    [Signal.const 1; Signal.const 2; Signal.const 3; Signal.const 4] in
  let a : @Tensor signals := [Signal.const 5] in
  let b : @Tensor signals := [Signal.const 6] in
  (exists x1 x2, split t = Ok (x1, x2) /\
                 x1 = firstn (Nat.div2 (length t)) t /\
                 x2 = skipn (Nat.div2 (length t)) t /\
                 merge x1 x2 = t) /\
  split (merge a b) = Ok (a, b).
Proof.
  intros t a b.
  apply (split_merge_mutual_inverses (FW := signals) t a b); reflexivity.
Defined.


(** ** The coupling block *)

Ltac unfold_init :=
  unfold irevnet_block.init, new_BatchNorm2d, new_Conv2d, new_Dropout,
    floordiv, bind.

Ltac split_ifs :=
  repeat match goal with
         | |- context [if ?c then _ else _] => destruct c eqn:?
         end.

Section BlockFacts.
Context {FW : Framework}.

Lemma unpermuted_permuted (b : irevnet_block.t) (t : Tensor) :
  Described.unpermuted b (Described.permuted b t) = t.
Proof.
  unfold Described.unpermuted, Described.permuted.
  destruct (irevnet_block.stride b =? 2); [apply psi_inverse_forward|reflexivity].
Qed.

(** The additive coupling and its inverse, without the padding stage. *)
Lemma coupling_roundtrip (b : irevnet_block.t) (p1 p2 : Tensor) :
  length (irevnet_block.bottleneck_block b p2)
  = length (Described.permuted b p1) ->
  exists y1,
    tadd (irevnet_block.bottleneck_block b p2) (Described.permuted b p1)
    = Ok y1 /\
    length y1 = length (Described.permuted b p1) /\
    tadd (tneg (irevnet_block.bottleneck_block b p2)) y1
    = Ok (Described.permuted b p1).
Proof.
  intros H. exists (zip_add (irevnet_block.bottleneck_block b p2)
                            (Described.permuted b p1)).
  split; [apply tadd_same; exact H|].
  split; [apply zip_add_length; exact H|].
  rewrite tadd_same.
  - now rewrite zip_add_cancel.
  - now rewrite tneg_length, zip_add_length.
Qed.

(** What [__init__] establishes. *)
Lemma init_fields (seq : list layer -> Tensor -> Tensor)
    (in_ch out_ch stride : Z) (first : bool) (dropout_rate : Q)
    (affineBN : bool) (mult : Z) (b : irevnet_block.t) :
  irevnet_block.init seq in_ch out_ch stride first dropout_rate affineBN mult
  = Ok b ->
  irevnet_block.pad b = 2 * out_ch - in_ch /\
  irevnet_block.inj_pad b = irevnet_block.pad b /\
  irevnet_block.stride b = stride /\
  irevnet_block.psi b = stride /\
  irevnet_block.first b = first.
Proof.
  unfold_init. split_ifs; try discriminate;
    intros H; injection H as <-; simpl; repeat split; reflexivity.
Qed.

(** The layers a successful [__init__] leaves. *)
Lemma init_layers (seq : list layer -> Tensor -> Tensor)
    (in_ch out_ch stride : Z) (first : bool) (dropout_rate : Q)
    (affineBN : bool) (mult : Z) (b : irevnet_block.t) :
  irevnet_block.init seq in_ch out_ch stride first dropout_rate affineBN mult
  = Ok b ->
  let width := (if negb (2 * out_ch - in_ch =? 0) && (stride =? 1)
                then out_ch * 2 else in_ch) / 2 in
  let w := out_ch / mult in
  irevnet_block.layers b
  = (if first then [] else [BatchNorm2d width affineBN; ReLU])
    ++ [Conv2d width w stride; BatchNorm2d w affineBN; ReLU; Conv2d w w 1;
        Dropout dropout_rate; BatchNorm2d w affineBN; ReLU;
        Conv2d w out_ch 1] /\
  irevnet_block.bottleneck_block b = seq (irevnet_block.layers b) /\
  buildable in_ch out_ch stride dropout_rate mult = true.
Proof.
  unfold buildable. unfold_init.
  destruct (negb (2 * out_ch - in_ch =? 0) && (stride =? 1));
    destruct first; cbv zeta;
    destruct (mult =? 0); cbn [negb andb];
    repeat match goal with
           | |- context [?a <? 0] =>
               let E := fresh "E" in
               destruct (a <? 0) eqn:E;
               [|replace (0 <=? a) with true
                   by (symmetry; apply Z.leb_le; apply Z.ltb_ge; exact E)]
           end; cbn [orb andb]; try discriminate;
    destruct (Qle_bool 0 dropout_rate); cbn [andb]; try discriminate;
    destruct (Qle_bool dropout_rate 1); try discriminate;
    intros H; injection H as <-; simpl; repeat split; reflexivity.
Qed.

Lemma init_total (seq : list layer -> Tensor -> Tensor)
    (in_ch out_ch stride : Z) (first : bool) (dropout_rate : Q)
    (affineBN : bool) (mult : Z) :
  buildable in_ch out_ch stride dropout_rate mult = true ->
  exists b, irevnet_block.init seq in_ch out_ch stride first dropout_rate
              affineBN mult = Ok b.
Proof.
  unfold buildable. cbv zeta. rewrite !andb_true_iff, negb_true_iff.
  intros (((((Hm & Hin) & Hw) & Hout) & Hp0) & Hp1).
  apply Z.leb_le in Hin, Hw, Hout.
  unfold_init. rewrite Hm, Hp0, Hp1.
  replace (_ / 2 <? 0) with false by (symmetry; apply Z.ltb_ge; exact Hin).
  replace (out_ch / mult <? 0) with false
    by (symmetry; apply Z.ltb_ge; exact Hw).
  replace (out_ch <? 0) with false by (symmetry; apply Z.ltb_ge; exact Hout).
  destruct first; eexists; reflexivity.
Qed.

(** Non-negative channel counts, a positive [mult] and a probability as
    dropout rate are accepted. *)
Lemma buildable_nonneg (in_ch out_ch stride : Z) (dropout_rate : Q)
    (mult : Z) :
  0 < mult -> 0 <= in_ch -> 0 <= out_ch ->
  Qle_bool 0 dropout_rate = true -> Qle_bool dropout_rate 1 = true ->
  buildable in_ch out_ch stride dropout_rate mult = true.
Proof.
  intros Hm Hin Hout Hp0 Hp1. unfold buildable. cbv zeta.
  rewrite Hp0, Hp1, !andb_true_r, !andb_true_iff, negb_true_iff.
  repeat split.
  - apply Z.eqb_neq. lia.
  - apply Z.leb_le. destruct (negb _ && _); apply Z.div_pos; lia.
  - apply Z.leb_le. apply Z.div_pos; lia.
  - apply Z.leb_le. exact Hout.
Qed.

Lemma padded_split (p : Z) (x1 x2 : Tensor) :
  length x1 = length x2 -> 0 < p -> Z.even p = true ->
  let m := inj_pad_forward p (merge x1 x2) in
  split m = Ok (firstn (Nat.div2 (length m)) m, skipn (Nat.div2 (length m)) m).
Proof. intros _ _ _ m. reflexivity. Qed.

(** [inverse] on a coupled pair, up to the padding stage. *)
Lemma inverse_coupled (b : irevnet_block.t) (p1 p2 y1 : Tensor) :
  tadd (tneg (irevnet_block.bottleneck_block b p2)) y1
  = Ok (Described.permuted b p1) ->
  irevnet_block.inverse b (Described.permuted b p2, y1)
  = if irevnet_block.pads b
    then split (inj_pad_inverse (irevnet_block.inj_pad b) (merge p1 p2))
    else Ok (p1, p2).
Proof.
  intros H.
  cbv beta zeta iota delta [irevnet_block.inverse fst snd].
  change (if irevnet_block.stride b =? 2
          then psi_inverse (irevnet_block.psi b) (Described.permuted b p2)
          else Described.permuted b p2)
    with (Described.unpermuted b (Described.permuted b p2)).
  rewrite unpermuted_permuted, H. unfold bind.
  change (if irevnet_block.stride b =? 2
          then psi_inverse (irevnet_block.psi b) (Described.permuted b p1)
          else Described.permuted b p1)
    with (Described.unpermuted b (Described.permuted b p1)).
  rewrite unpermuted_permuted. reflexivity.
Qed.

(** [forward] on the pair the coupling sees. *)
Lemma forward_coupled (b : irevnet_block.t) (x p : Tensor * Tensor)
    (y1 : Tensor) :
  (if irevnet_block.pads b
   then split (inj_pad_forward (irevnet_block.inj_pad b)
                 (merge (fst x) (snd x)))
   else Ok x) = Ok p ->
  tadd (irevnet_block.bottleneck_block b (snd p))
       (Described.permuted b (fst p)) = Ok y1 ->
  irevnet_block.forward b x = Ok (Described.permuted b (snd p), y1).
Proof.
  intros Hp Hy.
  cbv beta zeta delta [irevnet_block.forward]. rewrite Hp. unfold bind at 1.
  cbv beta zeta.
  change (if irevnet_block.stride b =? 2
          then psi_forward (irevnet_block.psi b) (fst p) else fst p)
    with (Described.permuted b (fst p)).
  rewrite Hy. reflexivity.
Qed.

Lemma block_ok_fits (b : irevnet_block.t) (x : Tensor * Tensor) :
  block_ok b x -> block_fits b x.
Proof.
  intros (Hl & Hpad & HF). split; [|exact HF].
  intros Hp. destruct (Hpad Hp) as [Hpos _]. split; [exact Hpos|].
  rewrite <- Hl.
  replace (length (fst x) + length (fst x))%nat
    with (2 * length (fst x))%nat by lia.
  now rewrite Nat.div2_double.
Qed.

(** The block round trip, for any block object. *)
Lemma block_roundtrip_fits (b : irevnet_block.t) (x : Tensor * Tensor) :
  block_fits b x ->
  exists y, irevnet_block.forward b x = Ok y /\
            irevnet_block.inverse b y = Ok x /\
            fst y = Described.permuted b (snd (coupled_input b x)) /\
            length (snd y)
            = length (Described.permuted b (fst (coupled_input b x))).
Proof.
  destruct x as [x1 x2]. unfold block_fits, coupled_input.
  intros (Hpad & HF). simpl fst in Hpad. simpl snd in Hpad.
  destruct (irevnet_block.pads b) eqn:Hp.
  - destruct (Hpad eq_refl) as [Hpos Hl].
    cbv zeta in HF |- *. simpl fst in HF |- *. simpl snd in HF |- *.
    set (m := inj_pad_forward (irevnet_block.inj_pad b) (merge x1 x2)) in *.
    set (p1 := firstn (Nat.div2 (length m)) m) in *.
    set (p2 := skipn (Nat.div2 (length m)) m) in *.
    destruct (coupling_roundtrip b p1 p2 HF) as (y1 & Hy & Hly & Hinv).
    exists (Described.permuted b p2, y1). split; [|split; [|split]].
    + apply (forward_coupled b (x1, x2) (p1, p2)); [|exact Hy].
      rewrite Hp. reflexivity.
    + rewrite (inverse_coupled b p1 p2 y1 Hinv), Hp.
      assert (Hm : merge p1 p2 = m) by apply firstn_skipn.
      rewrite Hm. unfold m. rewrite inj_pad_inverse_forward.
      apply split_merge_half; exact Hl.
    + reflexivity.
    + exact Hly.
  - simpl fst in HF |- *; simpl snd in HF |- *.
    destruct (coupling_roundtrip b x1 x2 HF) as (y1 & Hy & Hly & Hinv).
    exists (Described.permuted b x2, y1). split; [|split; [|split]].
    + apply (forward_coupled b (x1, x2) (x1, x2)); [|exact Hy].
      rewrite Hp. reflexivity.
    + rewrite (inverse_coupled b x1 x2 y1 Hinv), Hp. reflexivity.
    + reflexivity.
    + exact Hly.
Qed.

Lemma block_roundtrip (b : irevnet_block.t) (x : Tensor * Tensor) :
  block_ok b x ->
  exists y, irevnet_block.forward b x = Ok y /\
            irevnet_block.inverse b y = Ok x /\
            fst y = Described.permuted b (snd (coupled_input b x)) /\
            length (snd y)
            = length (Described.permuted b (fst (coupled_input b x))).
Proof. intros H. apply block_roundtrip_fits, block_ok_fits, H. Qed.

(** C1: for a block built by the constructor from any configuration
    [(in_ch, out_ch, stride, first, dropout_rate, mult)] and an input pair
    [(x1, x2)] of matching shape that fits it, [forward] succeeds and
    [inverse] of its result is exactly [(x1, x2)], in exact arithmetic and
    with F a function (its two evaluations agree). *)
Theorem block_inverse_forward (seq : list layer -> Tensor -> Tensor)
    (in_ch out_ch stride : Z) (first : bool) (dropout_rate : Q)
    (affineBN : bool) (mult : Z) (b : irevnet_block.t) (x1 x2 : Tensor) :
  irevnet_block.init seq in_ch out_ch stride first dropout_rate affineBN mult
  = Ok b ->
  block_ok b (x1, x2) ->
  exists y, irevnet_block.forward b (x1, x2) = Ok y /\
            irevnet_block.inverse b y = Ok (x1, x2).
Proof.
  intros _ Hok.
  destruct (block_roundtrip b (x1, x2) Hok) as (y & Hf & Hi & _).
  exists y. split; assumption.
Qed.

End BlockFacts.

Lemma block_inverse_forward_witness :
  let x1 : @Tensor signals := [Signal.const 1] in
  let x2 : @Tensor signals := [Signal.const 2] in
  exists b,
    irevnet_block.init (FW := signals) (wide_seq 0)
      2 2 1 true 0%Q true 1 = Ok b /\
    exists y, irevnet_block.forward b (x1, x2) = Ok y /\
              irevnet_block.inverse b y = Ok (x1, x2).
Proof.
  intros x1 x2. eexists. split; [reflexivity|].
  apply (block_inverse_forward (FW := signals)
           (wide_seq 0) 2 2 1 true 0%Q true 1).
  - reflexivity.
  - unfold block_ok. repeat split; vm_compute; reflexivity.
Defined.

Section BlockClaims.
Context {FW : Framework}.
Variable seq : list layer -> Tensor -> Tensor.
Variables in_ch out_ch stride mult : Z.
Variable first affineBN : bool.
Variable dropout_rate : Q.
Variable b : irevnet_block.t.
Hypothesis Hinit :
  irevnet_block.init seq in_ch out_ch stride first dropout_rate affineBN mult
  = Ok b.

Lemma pads_iff :
  irevnet_block.pads b = true <-> 2 * out_ch - in_ch <> 0 /\ stride = 1.
Proof.
  destruct (init_fields _ _ _ _ _ _ _ _ _ Hinit) as (Hp & _ & Hs & _).
  unfold irevnet_block.pads. rewrite Hp, Hs, andb_true_iff, negb_true_iff.
  rewrite Z.eqb_neq, Z.eqb_eq. reflexivity.
Qed.

Lemma forward_as_described (x1 x2 : Tensor) :
  irevnet_block.forward b (x1, x2) = Described.forward b x1 x2.
Proof.
  destruct (init_fields _ _ _ _ _ _ _ _ _ Hinit) as (_ & Hi & _).
  cbv beta zeta delta [irevnet_block.forward Described.forward
                       Described.padded_pair inj_pad_forward fst snd].
  rewrite Hi. cbv beta iota.
  destruct (irevnet_block.pads b).
  - destruct (split _) as [[p1 p2]|e]; reflexivity.
  - reflexivity.
Qed.

(** C5 (amended): on an input pair [(x1, x2)] the block's [forward] is the
    described computation: [Fx2 = F(x2)], the spatial permutation applied
    to both halves exactly at stride 2, the result
    [(x2_after, Fx2 + x1_after)], preceded by merge, zero padding and
    re-split when the block pads; a block whose output channels exceed its
    input channels at stride 1 does pad, and padding adds [pad] channels.
    The channel count changes in the padding stage and in the permutation
    of a stride-2 block only: a block that does not pad returns the
    (permuted) second half and a tensor with the channel count of the
    (permuted) first half, so a block that neither pads nor has stride 2
    returns as many channels as it was given. *)
Theorem block_forward_steps (x1 x2 : Tensor) :
  irevnet_block.forward b (x1, x2) = Described.forward b x1 x2 /\
  (stride = 1 /\ in_ch < 2 * out_ch -> irevnet_block.pads b = true) /\
  (forall p1 p2,
      irevnet_block.pads b = true -> 0 < irevnet_block.pad b ->
      Described.padded_pair b x1 x2 = Ok (p1, p2) ->
      channels p1 + channels p2
      = channels x1 + channels x2 + irevnet_block.pad b) /\
  (forall o1 o2,
      irevnet_block.pads b = false ->
      length (irevnet_block.bottleneck_block b x2)
      = length (Described.permuted b x1) ->
      irevnet_block.forward b (x1, x2) = Ok (o1, o2) ->
      o1 = Described.permuted b x2 /\
      channels o2 = channels (Described.permuted b x1)) /\
  (forall o1 o2,
      irevnet_block.pads b = false -> stride <> 2 ->
      length (irevnet_block.bottleneck_block b x2) = length x1 ->
      irevnet_block.forward b (x1, x2) = Ok (o1, o2) ->
      channels o1 + channels o2 = channels x1 + channels x2).
Proof.
  assert (H4 : forall o1 o2,
      irevnet_block.pads b = false ->
      length (irevnet_block.bottleneck_block b x2)
      = length (Described.permuted b x1) ->
      irevnet_block.forward b (x1, x2) = Ok (o1, o2) ->
      o1 = Described.permuted b x2 /\
      channels o2 = channels (Described.permuted b x1)).
  { intros o1 o2 Hp HF Hfw. rewrite forward_as_described in Hfw.
    unfold Described.forward in Hfw. rewrite Hp in Hfw.
    unfold Described.coupling in Hfw. rewrite (tadd_same _ _ HF) in Hfw.
    injection Hfw as <- <-. split; [reflexivity|].
    unfold channels. now rewrite zip_add_length. }
  split; [apply forward_as_described|]. split; [|split; [|split]].
  - intros [Hs Hlt]. apply pads_iff. split; [lia|exact Hs].
  - intros p1 p2 _ Hpos Hsp. unfold Described.padded_pair in Hsp.
    destruct (split_inv _ _ _ Hsp) as (Hm & _ & _).
    apply (f_equal (@length _)) in Hm. unfold merge in Hm.
    rewrite !length_app, repeat_length in Hm. unfold channels. lia.
  - exact H4.
  - intros o1 o2 Hp Hs HF Hfw.
    assert (Hperm : forall t, Described.permuted b t = t).
    { intros t. unfold Described.permuted.
      destruct (init_fields _ _ _ _ _ _ _ _ _ Hinit) as (_ & _ & -> & _).
      apply Z.eqb_neq in Hs. now rewrite Hs. }
    destruct (H4 o1 o2 Hp) as [-> Ho2]; [now rewrite Hperm|exact Hfw|].
    rewrite Ho2, !Hperm. lia.
Qed.

(** C6: on an output pair [(x2, y1)] the block's [inverse] performs the
    described steps in order: undo the permutation on [x2] at stride 2,
    [Fx2 = -F(x2)], [x1 = Fx2 + y1], undo the permutation on [x1] at
    stride 2, and, when the forward pass padded, merge, truncate the
    injected channels and re-split. *)
Theorem block_inverse_steps (x2 y1 : Tensor) :
  irevnet_block.inverse b (x2, y1) = Described.inverse b x2 y1.
Proof.
  destruct (init_fields _ _ _ _ _ _ _ _ _ Hinit) as (_ & Hi & _).
  cbv beta zeta delta [irevnet_block.inverse Described.inverse
                       Described.unpermuted inj_pad_inverse fst snd].
  rewrite Hi. unfold bind.
  destruct (tadd _ y1) as [x1|e]; reflexivity.
Qed.

(** C7 (amended): a block with [pad = 2*out_ch - in_ch > 0] at stride 1,
    given a pair with [in_ch] channels in total, returns a pair with
    [out_ch] channels in each half, and [inverse] recovers from it a pair
    with the channels of the input pair, [in_ch] in total (the input pair
    itself when its first half has the size of a first half).  The padding
    stage runs exactly when [pad <> 0] at stride 1. *)
Theorem padding_channel_counts (x1 x2 : Tensor) :
  stride = 1 -> 0 < 2 * out_ch - in_ch ->
  channels x1 + channels x2 = in_ch ->
  channels (irevnet_block.bottleneck_block b
              (snd (coupled_input b (x1, x2)))) = out_ch ->
  (exists o1 o2,
      irevnet_block.forward b (x1, x2) = Ok (o1, o2) /\
      channels o1 = out_ch /\ channels o2 = out_ch /\
      exists r1 r2,
        irevnet_block.inverse b (o1, o2) = Ok (r1, r2) /\
        merge r1 r2 = merge x1 x2 /\
        channels r1 + channels r2 = in_ch /\
        (length x1 = Nat.div2 (length x1 + length x2) ->
         (r1, r2) = (x1, x2))) /\
  (irevnet_block.pads b = true <-> 2 * out_ch - in_ch <> 0 /\ stride = 1).
Proof.
  intros Hs Hpos Hc HF. split; [|apply pads_iff].
  destruct (init_fields _ _ _ _ _ _ _ _ _ Hinit) as (Hp & Hi & Hst & _).
  assert (Hpads : irevnet_block.pads b = true)
    by (apply pads_iff; split; [lia|exact Hs]).
  assert (Hperm : forall t, Described.permuted b t = t).
  { intros t. unfold Described.permuted. rewrite Hst, Hs. reflexivity. }
  unfold coupled_input in HF. rewrite Hpads in HF. cbv zeta in HF.
  simpl fst in HF; simpl snd in HF.
  set (m := inj_pad_forward (irevnet_block.inj_pad b) (merge x1 x2)) in *.
  assert (Hm : length m = (2 * Z.to_nat out_ch)%nat).
  { unfold m, inj_pad_forward, merge.
    rewrite !length_app, repeat_length, Hi, Hp. unfold channels in Hc. lia. }
  set (p1 := firstn (Nat.div2 (length m)) m) in *.
  set (p2 := skipn (Nat.div2 (length m)) m) in *.
  assert (H1 : length p1 = Z.to_nat out_ch)
    by (unfold p1; rewrite length_firstn, Hm, Nat.div2_double; lia).
  assert (H2 : length p2 = Z.to_nat out_ch)
    by (unfold p2; rewrite length_skipn, Hm, Nat.div2_double; lia).
  assert (Hout : 0 <= out_ch) by (unfold channels in Hc; lia).
  assert (HF' : length (irevnet_block.bottleneck_block b p2)
                = length (Described.permuted b p1)).
  { rewrite Hperm, H1. unfold channels in HF. lia. }
  destruct (coupling_roundtrip b p1 p2 HF') as (y1 & Hy & Hly & Hinv).
  exists (Described.permuted b p2), y1.
  split; [apply (forward_coupled b (x1, x2) (p1, p2));
          [rewrite Hpads; reflexivity|exact Hy]|].
  split; [rewrite Hperm; unfold channels; lia|].
  split; [rewrite Hperm in Hly; unfold channels; lia|].
  rewrite (inverse_coupled b p1 p2 y1 Hinv), Hpads.
  assert (Hmerge : merge p1 p2 = m) by apply firstn_skipn.
  rewrite Hmerge. unfold m. rewrite inj_pad_inverse_forward.
  unfold split. do 2 eexists. split; [reflexivity|].
  split; [apply firstn_skipn|]. split.
  - unfold merge, channels in *.
    rewrite <- Hc, <- !Nat2Z.inj_add, <- !length_app, firstn_skipn.
    reflexivity.
  - intros Hhalf. pose proof (split_merge_half x1 x2 Hhalf) as Hsp.
    unfold split in Hsp. injection Hsp as -> ->. reflexivity.
Qed.

End BlockClaims.

(** C7 as stated fails: the padding stage is not reserved to blocks whose
    output channels exceed the input channels.  A stride-1 block from 4
    input channels to 2 x 1 output channels has [pad = -2] and runs it. *)
Lemma padding_not_only_when_growing :
  exists b,
    irevnet_block.init (FW := signals) (wide_seq 0)
      4 1 1 false 0%Q true 1 = Ok b /\
    irevnet_block.pad b = -2 /\
    ~ (irevnet_block.pads b = true -> 4 < 2 * 1).
Proof.
  eexists. split; [reflexivity|]. split; [reflexivity|].
  intros H. specialize (H eq_refl). lia.
Qed.

Lemma block_forward_steps_witness :
  let x1 : @Tensor signals := [Signal.const 1] in
  let x2 : @Tensor signals := [Signal.const 2; ramp] in
  exists b,
    irevnet_block.init (FW := signals) (wide_seq 0)
      3 16 1 true (1 # 10) true 4 = Ok b /\
    irevnet_block.forward b (x1, x2) = Described.forward b x1 x2 /\
    (1 = 1 /\ 3 < 2 * 16 -> irevnet_block.pads b = true) /\
    (forall p1 p2,
        irevnet_block.pads b = true -> 0 < irevnet_block.pad b ->
        Described.padded_pair b x1 x2 = Ok (p1, p2) ->
        channels p1 + channels p2
        = channels x1 + channels x2 + irevnet_block.pad b) /\
    (forall o1 o2,
        irevnet_block.pads b = false ->
        length (irevnet_block.bottleneck_block b x2)
        = length (Described.permuted b x1) ->
        irevnet_block.forward b (x1, x2) = Ok (o1, o2) ->
        o1 = Described.permuted b x2 /\
        channels o2 = channels (Described.permuted b x1)) /\
    (forall o1 o2,
        irevnet_block.pads b = false -> 1 <> 2 ->
        length (irevnet_block.bottleneck_block b x2) = length x1 ->
        irevnet_block.forward b (x1, x2) = Ok (o1, o2) ->
        channels o1 + channels o2 = channels x1 + channels x2).
Proof.
  intros x1 x2. eexists. split; [reflexivity|].
  apply (block_forward_steps (FW := signals) (wide_seq 0)
           3 16 1 4 true true (1 # 10)).
  reflexivity.
Defined.

(** C5 as stated fails: padding is not the only place where the channel
    count grows.  A stride-2 block from 4 input channels to 2 x 8 output
    channels does not pad; its spatial permutation turns the 2 channels of
    each half into 8. *)
Lemma channel_count_grows_at_stride_2 :
  let x1 : @Tensor signals := [Signal.const 1; ramp] in
  let x2 : @Tensor signals := [Signal.const 3; Signal.const 4] in
  exists b o1 o2,
    irevnet_block.init (FW := signals) (wide_seq 0)
      4 8 2 true (1 # 10) true 4 = Ok b /\
    irevnet_block.pads b = false /\
    irevnet_block.forward b (x1, x2) = Ok (o1, o2) /\
    channels x1 + channels x2 = 4 /\
    channels o1 + channels o2 = 16 /\
    ~ (channels x1 + channels x2 < channels o1 + channels o2 ->
       irevnet_block.pads b = true).
Proof.
  intros x1 x2. do 3 eexists.
  split; [reflexivity|]. split; [reflexivity|].
  split; [vm_compute; reflexivity|].
  split; [reflexivity|]. split; [reflexivity|].
  intros H. assert (E : false = true) by (apply H; reflexivity).
  discriminate E.
Qed.

Lemma block_inverse_steps_witness :
  let x2 : @Tensor signals := [Signal.const 1; Signal.const 2] in
  let y1 : @Tensor signals := [Signal.const 3; Signal.const 4] in
  exists b,
    irevnet_block.init (FW := signals) (wide_seq 0)
      2 2 1 true 0%Q true 1 = Ok b /\
    irevnet_block.inverse b (x2, y1) = Described.inverse b x2 y1.
Proof.
  intros x2 y1. eexists. split; [reflexivity|].
  apply (block_inverse_steps (FW := signals) (wide_seq 0)
           2 2 1 1 true true 0%Q).
  reflexivity.
Defined.

Lemma padding_channel_counts_witness :
  let x1 : @Tensor signals := [Signal.const 1] in
  let x2 : @Tensor signals := [Signal.const 2; ramp] in
  exists b,
    irevnet_block.init (FW := signals) (wide_seq 0)
      3 16 1 true (1 # 10) true 4 = Ok b /\
    (exists o1 o2,
        irevnet_block.forward b (x1, x2) = Ok (o1, o2) /\
        channels o1 = 16 /\ channels o2 = 16 /\
        exists r1 r2,
          irevnet_block.inverse b (o1, o2) = Ok (r1, r2) /\
          merge r1 r2 = merge x1 x2 /\
          channels r1 + channels r2 = 3 /\
          (length x1 = Nat.div2 (length x1 + length x2) ->
           (r1, r2) = (x1, x2))) /\
    (irevnet_block.pads b = true <-> 2 * 16 - 3 <> 0 /\ 1 = 1).
Proof.
  intros x1 x2. eexists. split; [reflexivity|].
  apply (padding_channel_counts (FW := signals) (wide_seq 0)
           3 16 1 4 true true (1 # 10)).
  - reflexivity.
  - reflexivity.
  - lia.
  - reflexivity.
  - reflexivity.
Defined.

(** ** The network *)

Section NetFacts.
Context {FW : Framework}.

Lemma inverse_all_app (l1 l2 : list irevnet_block.t) (out : Tensor * Tensor) :
  Described.inverse_all (l1 ++ l2) out
  = match Described.inverse_all l1 out with
    | Ok out' => Described.inverse_all l2 out'
    | Raise e => Raise e
    end.
Proof.
  revert out. induction l1 as [|b l1 IH]; intros out; simpl; [reflexivity|].
  destruct (irevnet_block.inverse b out); [apply IH|reflexivity].
Qed.

(** Indexing the stack with [-1-i] for [i] in [range(len(stack))] visits the
    blocks from the last to the first. *)
Lemma inverse_loop_rev (l1 l2 : list irevnet_block.t) (out : Tensor * Tensor) :
  iRevNet.inverse_loop (l1 ++ l2) (seq (length l2) (length l1)) out
  = Described.inverse_all (rev l1) out.
Proof.
  revert l2 out. induction l1 as [|b l1 IH] using rev_ind; intros l2 out.
  - reflexivity.
  - rewrite length_app, Nat.add_comm. simpl seq. simpl iRevNet.inverse_loop.
    replace (length ((l1 ++ [b]) ++ l2) - 1 - length l2)%nat
      with (length l1 + 0)%nat
      by (rewrite !length_app; simpl; lia).
    rewrite <- app_assoc. simpl app.
    rewrite nth_error_app2, Nat.add_0_r, Nat.sub_diag by lia. simpl nth_error.
    rewrite rev_app_distr. simpl. unfold bind.
    destruct (irevnet_block.inverse b out) as [out'|e]; [|reflexivity].
    apply (IH (b :: l2) out').
Qed.

Lemma stack_roundtrip (blocks : list irevnet_block.t) (x : Tensor * Tensor) :
  stack_fits blocks x ->
  exists y, iRevNet.forward_loop blocks x = Ok y /\
            length (fst y) = Nat.div2 (length (fst y) + length (snd y)) /\
            Described.inverse_all (rev blocks) y = Ok x.
Proof.
  revert x. induction blocks as [|b blocks IH]; intros x Hok.
  - exists x. simpl in *. auto.
  - destruct Hok as [Hb Hrest].
    destruct (block_roundtrip_fits b x Hb) as (y & Hf & Hi & _).
    rewrite Hf in Hrest. destruct (IH y Hrest) as (z & Hz & Hlen & Hinv).
    exists z. simpl. rewrite Hf. unfold bind at 1.
    split; [exact Hz|]. split; [exact Hlen|].
    rewrite inverse_all_app, Hinv. simpl. rewrite Hi. reflexivity.
Qed.

Lemma inverse_as_described {Logits : Type} (net : iRevNet.t Logits)
    (out_bij : Tensor) :
  iRevNet.inverse net out_bij = Described.net_inverse net out_bij.
Proof.
  unfold iRevNet.inverse, Described.net_inverse, bind.
  destruct (split out_bij) as [halves|e]; [|reflexivity].
  pose proof (inverse_loop_rev (iRevNet.stack net) [] halves) as H.
  rewrite app_nil_r in H. simpl length in H. rewrite H.
  destruct (Described.inverse_all _ halves) as [[x1 x2]|e]; [|reflexivity].
  simpl fst; simpl snd. destruct (iRevNet.init_ds net); reflexivity.
Qed.

Lemma forward_from_first_pair {Logits : Type} (net : iRevNet.t Logits)
    (x : Tensor) :
  iRevNet.forward net x
  = match iRevNet.forward_loop (iRevNet.stack net) (first_pair net x) with
    | Ok out =>
        match iRevNet.head net (merge (fst out) (snd out)) with
        | Ok logits => Ok (logits, merge (fst out) (snd out))
        | Raise e => Raise e
        end
    | Raise e => Raise e
    end.
Proof.
  unfold iRevNet.forward, first_pair, Described.split_off, bind.
  destruct (iRevNet.init_ds net); reflexivity.
Qed.

Lemma split_off_recovered {Logits : Type} (net : iRevNet.t Logits)
    (x : Tensor) :
  match iRevNet.init_ds net with
  | O => Described.split_off net x
  | S _ => psi_inverse (iRevNet.init_psi net) (Described.split_off net x)
  end = x.
Proof.
  unfold Described.split_off.
  destruct (iRevNet.init_ds net); [reflexivity|apply psi_inverse_forward].
Qed.

(** The network round trip, for any network object. *)
Lemma net_roundtrip {Logits : Type} (net : iRevNet.t Logits) (x : Tensor) :
  net_fits net x ->
  exists logits out_bij halves,
    iRevNet.forward net x = Ok (logits, out_bij) /\
    split out_bij = Ok halves /\
    Described.inverse_all (rev (iRevNet.stack net)) halves
    = Ok (first_pair net x) /\
    merge (fst (first_pair net x)) (snd (first_pair net x))
    = Described.split_off net x /\
    iRevNet.inverse net out_bij = Ok x.
Proof.
  intros [Hstack Hhead].
  destruct (stack_roundtrip _ _ Hstack) as ([o1 o2] & Hf & Hlen & Hinv).
  destruct (Hhead _ Hf) as [logits Hl].
  simpl fst in *; simpl snd in *.
  assert (Hm : merge (fst (first_pair net x)) (snd (first_pair net x))
               = Described.split_off net x)
    by (unfold first_pair; cbv zeta; simpl fst; simpl snd; apply firstn_skipn).
  exists logits, (merge o1 o2), (o1, o2). repeat split.
  - rewrite forward_from_first_pair, Hf. simpl fst; simpl snd.
    rewrite Hl. reflexivity.
  - apply split_merge_half; exact Hlen.
  - exact Hinv.
  - exact Hm.
  - rewrite inverse_as_described. unfold Described.net_inverse.
    rewrite (split_merge_half o1 o2 Hlen), Hinv.
    destruct (first_pair net x) as [a c] eqn:E. simpl fst in Hm; simpl snd in Hm.
    rewrite Hm. rewrite split_off_recovered. reflexivity.
Qed.


End NetFacts.



(** ** The stage schedule and the stack *)

Section Schedule.
Context {FW : Framework}.

Lemma expand_stages (nChannels nBlocks nStrides strides channels : list Z) :
  expand nChannels nBlocks nStrides strides channels
  = (strides ++ flat_map (fun st => [snd (snd st)] ++ times 1 (fst (snd st) - 1))
                  (Described.stages nChannels nBlocks nStrides),
     channels ++ flat_map (fun st => times (fst st) (fst (snd st)))
                   (Described.stages nChannels nBlocks nStrides)).
Proof.
  revert nBlocks nStrides strides channels.
  induction nChannels as [|c nC IH]; intros [|d nB] [|s nS] st ch;
    unfold Described.stages; simpl; rewrite ?app_nil_r; try reflexivity.
  rewrite IH. unfold Described.stages. rewrite <- !app_assoc. reflexivity.
Qed.

Lemma stages_truncated (nChannels nBlocks nStrides : list Z) :
  let m := Nat.min (length nChannels)
             (Nat.min (length nBlocks) (length nStrides)) in
  Described.stages (firstn m nChannels) (firstn m nBlocks) (firstn m nStrides)
  = Described.stages nChannels nBlocks nStrides.
Proof.
  intros m. unfold Described.stages.
  rewrite <- !combine_firstn. apply firstn_all2.
  rewrite !length_combine. unfold m. lia.
Qed.

Lemma irevnet_stack_stages (seq : nat -> list layer -> Tensor -> Tensor)
    (first : bool) (nC nB nS nC' nB' nS' : list Z) (dropout_rate : Q)
    (affineBN : bool) (in_ch mult : Z) :
  Described.stages nC nB nS = Described.stages nC' nB' nS' ->
  iRevNet.irevnet_stack seq first nC nB nS dropout_rate affineBN in_ch mult
  = iRevNet.irevnet_stack seq first nC' nB' nS' dropout_rate affineBN in_ch
      mult.
Proof.
  intros H. unfold iRevNet.irevnet_stack.
  rewrite !expand_stages, H. reflexivity.
Qed.

Lemma accepted_cons (c : Z) (cs : list Z) (in_ch mult stride : Z)
    (dropout_rate : Q) :
  accepted (c :: cs) in_ch mult dropout_rate ->
  buildable in_ch c stride dropout_rate mult = true /\
  accepted cs (2 * c) mult dropout_rate.
Proof.
  intros (Hm & Hin & HF & Hp0 & Hp1). inversion HF as [|? ? Hc HF']; subst.
  split; [apply buildable_nonneg; assumption|].
  repeat split; try assumption. lia.
Qed.

Lemma accepted_schedule (nC nB nS : list Z) (in_ch mult : Z)
    (dropout_rate : Q) :
  accepted nC in_ch mult dropout_rate ->
  accepted (flat_map (fun st => times (fst st) (fst (snd st)))
              (Described.stages nC nB nS)) in_ch mult dropout_rate.
Proof.
  intros (Hm & Hin & HF & Hp0 & Hp1). repeat split; try assumption.
  apply Forall_forall. intros c Hc. apply in_flat_map in Hc.
  destruct Hc as ([c0 [d s]] & Hst & Hc). simpl in Hc.
  unfold times in Hc. apply repeat_spec in Hc. subst c.
  apply in_combine_l in Hst. rewrite Forall_forall in HF. apply HF, Hst.
Qed.

Lemma build_total (seq : nat -> list layer -> Tensor -> Tensor)
    (channels strides : list Z) (dropout_rate : Q) (affineBN : bool)
    (mult : Z) (i : nat) (in_ch : Z) (first : bool)
    (acc : list irevnet_block.t) :
  accepted channels in_ch mult dropout_rate ->
  exists blocks f,
    iRevNet.build seq channels strides dropout_rate affineBN mult i in_ch
      first acc = Ok (blocks, f).
Proof.
  revert strides i in_ch first acc.
  induction channels as [|c cs IH]; intros [|s ss] i in_ch first acc Hacc;
    simpl; try (do 2 eexists; reflexivity).
  destruct (accepted_cons c cs in_ch mult s dropout_rate Hacc) as [Hb Hrest].
  destruct (init_total (seq i) in_ch c s first dropout_rate affineBN mult Hb)
    as [b Hinit].
  rewrite Hinit. unfold bind. apply IH, Hrest.
Qed.


End Schedule.



Section StackSchedule.
Context {FW : Framework}.

Lemma combine_app_same {A B : Type} (a1 a2 : list A) (b1 b2 : list B) :
  length a1 = length b1 ->
  combine (a1 ++ a2) (b1 ++ b2) = combine a1 b1 ++ combine a2 b2.
Proof.
  revert b1. induction a1 as [|x a1 IH]; intros [|y b1] H; simpl in *;
    try discriminate; [reflexivity|].
  rewrite IH by lia. reflexivity.
Qed.

Lemma combine_repeat {A B : Type} (a : A) (b : B) (n : nat) :
  combine (repeat a n) (repeat b n) = repeat (a, b) n.
Proof. induction n as [|n IH]; simpl; [reflexivity|now rewrite IH]. Qed.

Lemma stage_combine (c d s : Z) :
  1 <= d ->
  combine (times c d) ([s] ++ times 1 (d - 1))
  = Described.stage_pairs (c, (d, s)) /\
  length (times c d) = length ([s] ++ times 1 (d - 1)).
Proof.
  intros Hd. unfold times, Described.stage_pairs. simpl fst; simpl snd.
  replace (Z.to_nat d) with (S (Z.to_nat (d - 1))) by lia.
  simpl. rewrite combine_repeat, Nat.sub_0_r, !repeat_length. auto.
Qed.

Lemma stage_pairs_length (c d s : Z) :
  1 <= d -> length (Described.stage_pairs (c, (d, s))) = Z.to_nat d.
Proof.
  intros Hd. unfold Described.stage_pairs. simpl. rewrite repeat_length. lia.
Qed.

Lemma flat_combine (stgs : list (Z * (Z * Z))) :
  Forall (fun st => 1 <= fst (snd st)) stgs ->
  combine (flat_map (fun st => times (fst st) (fst (snd st))) stgs)
          (flat_map (fun st => [snd (snd st)] ++ times 1 (fst (snd st) - 1))
             stgs)
  = flat_map Described.stage_pairs stgs.
Proof.
  induction 1 as [|[c [d s]] stgs Hd _ IH]; [reflexivity|].
  simpl fst in *; simpl snd in *.
  destruct (stage_combine c d s Hd) as [Hc Hl].
  cbn [flat_map]. simpl fst; simpl snd.
  rewrite combine_app_same by exact Hl. rewrite Hc, IH. reflexivity.
Qed.

Lemma stages_depths (nC nB nS : list Z) :
  Forall (fun d => 1 <= d) nB ->
  Forall (fun st => 1 <= fst (snd st)) (Described.stages nC nB nS).
Proof.
  intros H. revert nC nS. induction H as [|d nB Hd _ IH]; intros nC nS.
  - destruct nC; constructor.
  - destruct nC as [|c nC]; [constructor|].
    destruct nS as [|s nS]; [constructor|].
    unfold Described.stages. simpl. constructor; [exact Hd|apply IH].
Qed.

(** Block [j] of stage [k] in the flattened schedule. *)
Lemma stage_nth (nC nB nS : list Z) :
  length nC = length nB -> length nB = length nS ->
  Forall (fun d => 1 <= d) nB ->
  forall k c d s j,
    nth_error nC k = Some c -> nth_error nB k = Some d ->
    nth_error nS k = Some s -> (j < Z.to_nat d)%nat ->
    nth_error (flat_map Described.stage_pairs (Described.stages nC nB nS))
              (Described.offset nB k + j)
    = Some (c, if (j =? 0)%nat then s else 1).
Proof.
  revert nB nS.
  induction nC as [|c0 nC IH]; intros [|d0 nB] [|s0 nS] H1 H2 HF k c d s j;
    simpl in H1, H2; try discriminate.
  - destruct k; discriminate.
  - inversion HF as [|? ? Hd0 HF']; subst.
    unfold Described.stages. cbn [combine flat_map].
    fold (Described.stages nC nB nS).
    intros Hc Hd Hs Hj. destruct k as [|k]; simpl in Hc, Hd, Hs.
    + injection Hc as <-. injection Hd as <-. injection Hs as <-.
      simpl Described.offset. rewrite nth_error_app1
        by (rewrite stage_pairs_length; lia).
      unfold Described.stage_pairs. simpl fst; simpl snd.
      destruct j as [|j]; [reflexivity|]. simpl.
      apply nth_error_repeat. lia.
    + simpl Described.offset.
      rewrite nth_error_app2 by (rewrite stage_pairs_length; lia).
      rewrite stage_pairs_length by exact Hd0.
      replace (Z.to_nat d0 + Described.offset nB k + j - Z.to_nat d0)%nat
        with (Described.offset nB k + j)%nat by lia.
      apply (IH nB nS) with (d := d); auto.
Qed.

Lemma stage_total (nC nB nS : list Z) :
  length nC = length nB -> length nB = length nS ->
  Forall (fun d => 1 <= d) nB ->
  length (flat_map Described.stage_pairs (Described.stages nC nB nS))
  = Described.offset nB (length nB).
Proof.
  revert nB nS.
  induction nC as [|c0 nC IH]; intros [|d0 nB] [|s0 nS] H1 H2 HF;
    simpl in H1, H2; try discriminate; [reflexivity|].
  inversion HF as [|? ? Hd0 HF']; subst.
  unfold Described.stages. cbn [combine flat_map].
  fold (Described.stages nC nB nS).
  rewrite length_app, stage_pairs_length by exact Hd0.
  simpl. rewrite IH; auto.
Qed.

Lemma calls_of_length (pairs : list (Z * Z)) (in_ch : Z) (first : bool) :
  length (Described.calls_of pairs in_ch first) = length pairs.
Proof.
  revert in_ch first. induction pairs as [|[c s] pairs IH]; intros; simpl;
    [reflexivity|now rewrite IH].
Qed.

Lemma calls_of_nth (pairs : list (Z * Z)) (in_ch : Z) (first : bool)
    (i : nat) (c s : Z) :
  nth_error pairs i = Some (c, s) ->
  exists cl, nth_error (Described.calls_of pairs in_ch first) i = Some cl /\
             Described.c_out cl = c /\ Described.c_stride cl = s.
Proof.
  revert in_ch first i.
  induction pairs as [|[c0 s0] pairs IH]; intros in_ch first [|i] H;
    simpl in *; try discriminate.
  - injection H as <- <-. eexists. repeat split.
  - apply IH; exact H.
Qed.

Lemma calls_of_in (pairs : list (Z * Z)) (in_ch : Z) (first : bool)
    (i : nat) (a b : Described.call) :
  nth_error (Described.calls_of pairs in_ch first) i = Some a ->
  nth_error (Described.calls_of pairs in_ch first) (S i) = Some b ->
  Described.c_in b = 2 * Described.c_out a.
Proof.
  revert in_ch first i.
  induction pairs as [|[c0 s0] pairs IH]; intros in_ch first i Ha Hb;
    [destruct i; discriminate|].
  destruct i as [|i].
  - simpl in Ha. injection Ha as <-. simpl in Hb.
    destruct pairs as [|[c1 s1] pairs]; [discriminate|].
    simpl in Hb. injection Hb as <-. reflexivity.
  - simpl in Ha. change (nth_error (Described.calls_of pairs (2 * c0) false)
                           (S i) = Some b) in Hb.
    apply (IH _ _ _ Ha Hb).
Qed.

Lemma calls_of_not_first (pairs : list (Z * Z)) (in_ch : Z) (i : nat)
    (a : Described.call) :
  nth_error (Described.calls_of pairs in_ch false) i = Some a ->
  Described.c_first a = false.
Proof.
  revert in_ch i.
  induction pairs as [|[c0 s0] pairs IH]; intros in_ch [|i] H; simpl in H;
    try discriminate.
  - injection H as <-. reflexivity.
  - apply (IH _ _ H).
Qed.

Lemma calls_of_first (pairs : list (Z * Z)) (in_ch : Z) (i : nat)
    (a : Described.call) :
  nth_error (Described.calls_of pairs in_ch true) i = Some a ->
  Described.c_first a = true <-> i = O.
Proof.
  destruct pairs as [|[c0 s0] pairs]; [destruct i; discriminate|].
  destruct i as [|i]; simpl; intros H.
  - injection H as <-. simpl. tauto.
  - rewrite (calls_of_not_first _ _ _ _ H). split; discriminate.
Qed.

(** The block loop constructs one block per call, in order. *)
Lemma build_calls (seq : nat -> list layer -> Tensor -> Tensor)
    (dropout_rate : Q) (affineBN : bool) (mult : Z) :
  forall channels strides i in_ch first acc,
  accepted channels in_ch mult dropout_rate ->
  exists blocks f,
    iRevNet.build seq channels strides dropout_rate affineBN mult i in_ch
      first acc = Ok (acc ++ blocks, f) /\
    length blocks = length (combine channels strides) /\
    forall j c,
      nth_error (Described.calls_of (combine channels strides) in_ch first) j
      = Some c ->
      exists b, nth_error blocks j = Some b /\
        irevnet_block.init (seq (i + j)%nat) (Described.c_in c)
          (Described.c_out c) (Described.c_stride c) (Described.c_first c)
          dropout_rate affineBN mult = Ok b.
Proof.
  intros channels.
  induction channels as [|c cs IH]; intros [|s ss] i in_ch first acc Hacc;
    try (exists [], first; simpl; rewrite app_nil_r;
         repeat split; intros [|j] ? H; discriminate H).
  destruct (accepted_cons c cs in_ch mult s dropout_rate Hacc) as [Hok Hrest].
  destruct (init_total (seq i) in_ch c s first dropout_rate affineBN mult Hok)
    as [b Hb].
  destruct (IH ss (S i) (2 * c) false (acc ++ [b]) Hrest)
    as (blocks & f & Hbuild & Hlen & Hnth).
  exists (b :: blocks), f. cbn [iRevNet.build]. rewrite Hb. unfold bind at 1.
  rewrite Hbuild, <- app_assoc. cbn [app combine length].
  split; [reflexivity|]. split; [now rewrite Hlen|].
  intros [|j] cl H; simpl in H.
  - injection H as <-. exists b. simpl. rewrite Nat.add_0_r. auto.
  - destruct (Hnth j cl H) as (b' & Hb' & Hinit').
    exists b'. simpl. replace (i + S j)%nat with (S i + j)%nat by lia. auto.
Qed.

Lemma stack_described (seq : nat -> list layer -> Tensor -> Tensor)
    (nChannels nBlocks nStrides : list Z) (dropout_rate : Q)
    (affineBN : bool) (in_ch mult : Z) :
  length nChannels = length nBlocks ->
  length nBlocks = length nStrides ->
  Forall (fun depth => 1 <= depth) nBlocks ->
  accepted nChannels in_ch mult dropout_rate ->
  Described.stack_as_described seq nChannels nBlocks nStrides dropout_rate
    affineBN in_ch mult.
Proof.
  intros H1 H2 HF Hacc. unfold Described.stack_as_described,
    iRevNet.irevnet_stack.
  rewrite expand_stages. simpl app.
  pose proof (flat_combine _ (stages_depths nChannels nBlocks nStrides HF))
    as Hpairs.
  set (pairs := flat_map Described.stage_pairs
                  (Described.stages nChannels nBlocks nStrides)) in *.
  destruct (build_calls seq dropout_rate affineBN mult
              (flat_map (fun st => times (fst st) (fst (snd st)))
                 (Described.stages nChannels nBlocks nStrides))
              (flat_map (fun st => [snd (snd st)]
                                    ++ times 1 (fst (snd st) - 1))
                 (Described.stages nChannels nBlocks nStrides))
              O in_ch true []
              (accepted_schedule nChannels nBlocks nStrides _ _ _ Hacc))
    as (blocks & f & Hbuild & Hlen & Hnth).
  rewrite Hpairs in Hlen, Hnth.
  exists blocks, f, (Described.calls_of pairs in_ch true).
  split; [exact Hbuild|]. split.
  - split; [now rewrite calls_of_length|]. intros i c Hc.
    apply (Hnth i c Hc).
  - split; [|split; [|split]].
    + rewrite calls_of_length. apply stage_total; assumption.
    + intros k channel depth stride j Hc Hd Hs Hj.
      apply calls_of_nth.
      apply (stage_nth nChannels nBlocks nStrides H1 H2 HF k channel depth
               stride j Hc Hd Hs Hj).
    + intros i a b. apply calls_of_in.
    + intros i a. apply calls_of_first.
Qed.

Lemma build_strides (seq : nat -> list layer -> Tensor -> Tensor)
    (dropout_rate : Q) (affineBN : bool) (mult : Z) :
  forall channels strides i in_ch first acc,
  accepted channels in_ch mult dropout_rate ->
  exists blocks f,
    iRevNet.build seq channels strides dropout_rate affineBN mult i in_ch
      first acc = Ok (acc ++ blocks, f) /\
    map irevnet_block.stride blocks = map snd (combine channels strides).
Proof.
  intros channels.
  induction channels as [|c cs IH]; intros [|s ss] i in_ch first acc Hacc;
    try (exists [], first; simpl; rewrite app_nil_r; split; reflexivity).
  destruct (accepted_cons c cs in_ch mult s dropout_rate Hacc) as [Hok Hrest].
  destruct (init_total (seq i) in_ch c s first dropout_rate affineBN mult Hok)
    as [b Hb].
  destruct (IH ss (S i) (2 * c) false (acc ++ [b]) Hrest)
    as (blocks & f & Hbuild & Hmap).
  exists (b :: blocks), f. cbn [iRevNet.build]. rewrite Hb. unfold bind at 1.
  rewrite Hbuild, <- app_assoc. cbn [app combine map snd].
  split; [reflexivity|]. rewrite Hmap.
  destruct (init_fields _ _ _ _ _ _ _ _ _ Hb) as (_ & _ & -> & _).
  reflexivity.
Qed.

(** X14: for schedule lists of equal length whose block counts are all at
    least 1, and values the layer constructors accept, the stack is built
    by one constructor call per block, stage after stage: block [j] of
    stage [k] gets the stage's channel count and the stage's stride if
    [j = 0], stride 1 otherwise; the input channel count of a call is twice
    the output channel count of the call before; only the first call of
    the whole stack has [first=True].  Block counts [[2,3]] with strides
    [[1,2]] give the strides [[1,1,2,1,1]]. *)
Theorem stack_schedule (seq : nat -> list layer -> Tensor -> Tensor)
    (nChannels nBlocks nStrides : list Z) (dropout_rate : Q)
    (affineBN : bool) (in_ch mult : Z) :
  length nChannels = length nBlocks ->
  length nBlocks = length nStrides ->
  Forall (fun depth => 1 <= depth) nBlocks ->
  accepted nChannels in_ch mult dropout_rate ->
  Described.stack_as_described seq nChannels nBlocks nStrides dropout_rate
    affineBN in_ch mult /\
  forall c1 c2, 0 <= c1 -> 0 <= c2 -> exists blocks f,
    iRevNet.irevnet_stack seq true [c1; c2] [2; 3] [1; 2] dropout_rate
      affineBN in_ch mult = Ok (blocks, f) /\
    map irevnet_block.stride blocks = [1; 1; 2; 1; 1].
Proof.
  intros H1 H2 HF Hacc. split; [apply stack_described; assumption|].
  intros c1 c2 Hc1 Hc2. unfold iRevNet.irevnet_stack.
  change (expand [c1; c2] [2; 3] [1; 2] [] [])
    with ([1; 1; 2; 1; 1], [c1; c1; c2; c2; c2]).
  destruct Hacc as (Hm & Hin & _ & Hp0 & Hp1).
  destruct (build_strides seq dropout_rate affineBN mult
              [c1; c1; c2; c2; c2] [1; 1; 2; 1; 1] O in_ch true [])
    as (blocks & f & Hb & Hs).
  { repeat split; try assumption. repeat constructor; assumption. }
  exists blocks, f. split; assumption.
Qed.

End StackSchedule.

Lemma stack_schedule_witness :
  Described.stack_as_described wide_seq [16; 64; 256] [2; 2; 2] [1; 2; 2]
    (1 # 10) true 32 4 /\
  forall c1 c2, 0 <= c1 -> 0 <= c2 -> exists blocks f,
    iRevNet.irevnet_stack wide_seq true [c1; c2] [2; 3] [1; 2] (1 # 10)
      true 32 4 = Ok (blocks, f) /\
    map irevnet_block.stride blocks = [1; 1; 2; 1; 1].
Proof.
  apply (stack_schedule (FW := signals) wide_seq [16; 64; 256] [2; 2; 2]
           [1; 2; 2] (1 # 10) true 32 4).
  - reflexivity.
  - reflexivity.
  - repeat constructor; lia.
  - repeat split; try reflexivity; try lia. repeat constructor; lia.
Defined.

(** C4: a stage of zero blocks breaks the schedule.  The stage still
    contributes its stride to the flat stride list, which shifts the
    strides of every later stage: with block counts [[0,2]] and strides
    [[2,1]] the two blocks of the second stage get the strides [[2,1]], not
    [[1,1]], so the stack is not the one described. *)
Theorem zero_depth_stage_misaligns :
  (exists blocks f,
      iRevNet.irevnet_stack wide_seq true [8; 16] [0; 2] [2; 1] (1 # 10)
        true 16 4 = Ok (blocks, f) /\
      map irevnet_block.stride blocks = [2; 1]) /\
  ~ Described.stack_as_described wide_seq [8; 16] [0; 2] [2; 1] (1 # 10)
      true 16 4.
Proof.
  assert (E : exists blocks f,
             iRevNet.irevnet_stack wide_seq true [8; 16] [0; 2] [2; 1]
               (1 # 10) true 16 4 = Ok (blocks, f) /\
             map irevnet_block.stride blocks = [2; 1])
    by (do 2 eexists; split; reflexivity).
  split; [exact E|].
  intros (blocks & f & calls & Hst & [_ Hb] & (_ & Hstage & _)).
  destruct (Hstage 1%nat 16 2 1 0%nat eq_refl eq_refl eq_refl)
    as (c & Hc & _ & Hstr); [simpl; lia|].
  simpl in Hc, Hstr.
  destruct (Hb 0%nat c Hc) as (b & Hnb & Hinit).
  destruct (init_fields _ _ _ _ _ _ _ _ _ Hinit) as (_ & _ & Hs & _).
  destruct E as (B & F & HE & HS).
  rewrite HE in Hst. injection Hst as <- <-.
  destruct B as [|b0 B]; [discriminate|].
  simpl in Hnb. injection Hnb as ->. simpl in HS. injection HS as HS _.
  rewrite Hs, Hstr in HS. discriminate.
Qed.

(** ** Inversion and the state of the layers *)

Section LayerState.
Context {FW : Framework}.
Variable Store : Type.

Lemma forward_leaves (b : Stateful.t Store) (s : Store)
    (x : Tensor * Tensor) :
  snd (Stateful.forward b s x)
  = (b, snd (Stateful.call b s (snd (coupled_input (Stateful.self b) x)))).
Proof.
  unfold Stateful.forward, split.
  destruct (irevnet_block.pads (Stateful.self b)) eqn:Hp;
    cbv beta iota zeta;
    destruct (Stateful.call b s _) as [r s'] eqn:E;
    assert (E' : Stateful.call b s (snd (coupled_input (Stateful.self b) x))
                 = (r, s'))
      by (unfold coupled_input; rewrite Hp; exact E);
    try rewrite E'; destruct r; reflexivity.
Qed.

Lemma inverse_leaves (b : Stateful.t Store) (s : Store)
    (x : Tensor * Tensor) :
  snd (Stateful.inverse b s x)
  = (b, snd (Stateful.call b s
               (Described.unpermuted (Stateful.self b) (fst x)))).
Proof.
  unfold Stateful.inverse. cbv zeta.
  destruct (Stateful.call b s _) as [r s'] eqn:E.
  assert (E' : Stateful.call b s
                 (Described.unpermuted (Stateful.self b) (fst x)) = (r, s'))
    by exact E.
  try rewrite E'. destruct r; reflexivity.
Qed.

Lemma inverse_outcome (b : Stateful.t Store) (s : Store)
    (x : Tensor * Tensor) :
  fst (Stateful.inverse b s x)
  = do Fx2 <- fst (Stateful.call b s
                     (Described.unpermuted (Stateful.self b) (fst x)));
    irevnet_block.inverse (with_transform (Stateful.self b) (fun _ => Fx2)) x.
Proof.
  unfold Stateful.inverse. cbv zeta.
  destruct (Stateful.call b s _) as [r s'] eqn:E.
  assert (E' : Stateful.call b s
                 (Described.unpermuted (Stateful.self b) (fst x)) = (r, s'))
    by exact E.
  try rewrite E'. destruct r; reflexivity.
Qed.

Lemma forward_settled (b : Stateful.t Store) (s : Store)
    (x : Tensor * Tensor) :
  Stateful.settled b s (snd (coupled_input (Stateful.self b) x)) ->
  Stateful.forward b s x = (irevnet_block.forward (Stateful.self b) x, (b, s)).
Proof.
  unfold Stateful.settled, coupled_input.
  unfold Stateful.forward, irevnet_block.forward, split.
  destruct (irevnet_block.pads (Stateful.self b)); cbv beta iota zeta;
    cbn [fst snd]; unfold Tensor; intros H; rewrite H; reflexivity.
Qed.

Lemma inverse_settled (b : Stateful.t Store) (s : Store)
    (x : Tensor * Tensor) :
  Stateful.settled b s (Described.unpermuted (Stateful.self b) (fst x)) ->
  Stateful.inverse b s x = (irevnet_block.inverse (Stateful.self b) x, (b, s)).
Proof.
  unfold Stateful.settled, Described.unpermuted.
  intros H. unfold Stateful.inverse, irevnet_block.inverse. cbv zeta.
  unfold Tensor in *. rewrite H. reflexivity.
Qed.

Lemma put_same (l : list (Stateful.t Store)) (i : nat) (b : Stateful.t Store) :
  nth_error l i = Some b -> Stateful.put l i b = l.
Proof.
  revert i. induction l as [|a l IH]; intros [|i] H; simpl in *;
    try discriminate.
  - injection H as ->. reflexivity.
  - rewrite IH by exact H. reflexivity.
Qed.

Lemma inverse_loop_leaves (blocks : list (Stateful.t Store)) :
  forall range s out,
  fst (snd (Stateful.inverse_loop blocks range s out)) = blocks.
Proof.
  intros range. induction range as [|i range IH]; intros s out;
    [reflexivity|].
  cbn [Stateful.inverse_loop].
  destruct (nth_error blocks (length blocks - 1 - i)) as [b|] eqn:E;
    [|reflexivity].
  pose proof (inverse_leaves b s out) as Hl.
  destruct (Stateful.inverse b s out) as [r [b' s']].
  cbn [snd] in Hl. injection Hl as -> _.
  rewrite (put_same _ _ _ E).
  destruct r as [out'|e]; [apply IH|reflexivity].
Qed.

Lemma inverse_loop_settled (l1 l2 : list (Stateful.t Store)) (s : Store)
    (out : Tensor * Tensor) :
  Stateful.settled_back (rev l1) s out ->
  Stateful.inverse_loop (l1 ++ l2) (seq (length l2) (length l1)) s out
  = (Described.inverse_all (rev (map Stateful.self l1)) out, (l1 ++ l2, s)).
Proof.
  revert l2 out. induction l1 as [|b l1 IH] using rev_ind; intros l2 out H.
  - reflexivity.
  - rewrite rev_app_distr in H. cbn [rev app Stateful.settled_back] in H.
    destruct H as [Hb Hrest].
    rewrite length_app, Nat.add_comm. simpl seq.
    cbn [Stateful.inverse_loop].
    replace (length ((l1 ++ [b]) ++ l2) - 1 - length l2)%nat
      with (length l1 + 0)%nat
      by (rewrite !length_app; simpl; lia).
    rewrite <- app_assoc. simpl app.
    assert (E : nth_error (l1 ++ b :: l2) (length l1 + 0) = Some b).
    { rewrite nth_error_app2, Nat.add_0_r, Nat.sub_diag by lia. reflexivity. }
    rewrite E, (inverse_settled b s out Hb), (put_same _ _ _ E).
    rewrite map_app, rev_app_distr. cbn [map rev app Described.inverse_all].
    destruct (irevnet_block.inverse (Stateful.self b) out) as [out'|e];
      [|reflexivity].
    apply (IH (b :: l2) out' Hrest).
Qed.


End LayerState.



(** * The speech-command subsets: class [SubsetSC]

    [train/dataset/gcommands_dataset.py].  The base class
    [SPEECHCOMMANDS] leaves the object with its root [_path] and the list
    [_walker] of the files it found; [SubsetSC.__init__] then replaces
    [_walker] according to [subset].  The file system and [os.path] are
    parameters; opening a list file and reading its lines are two steps,
    and each of them can raise. *)

From Stdlib Require String.

Module SubsetSC.
Import String.

Section Dataset.
(** File objects. *)
Variable File : Type.
(** [open(filepath)]: [None] when opening raises (no such file, no
    permission). *)
Variable open : string -> option File.
(** [for line in fileobj]: the lines, [None] when reading raises (a line
    that cannot be decoded). *)
Variable lines : File -> option (list string).
(** [os.path.join], [os.path.normpath] and [str.strip]. *)
Variable join : string -> string -> string.
Variable normpath : string -> string.
Variable strip : string -> string.

Record t : Type := mk {
  _path : string;
  _walker : list string
}.

(** The local function [load_list]; [None] when the file cannot be
    opened or cannot be read. *)
Definition load_list (self : t) (filename : string) : option (list string) :=
  let filepath := join (_path self) filename in
  match open filepath with
  | None => None
  | Some fileobj =>
      match lines fileobj with
      | None => None
      | Some ls =>
          Some (map (fun line => normpath (join (_path self) (strip line)))
                    ls)
      end
  end.

(** The list file [filename] cannot be loaded: [open] raises, or it
    returns a file object that cannot be read to its end. *)
Definition cannot_load (self : t) (filename : string) : Prop :=
  open (join (_path self) filename) = None \/
  exists fileobj,
    open (join (_path self) filename) = Some fileobj /\
    lines fileobj = None.

(** [w not in excludes], for [excludes] a set of strings. *)
Definition not_in (excludes : list string) (w : string) : bool :=
  negb (existsb (String.eqb w) excludes).

(** [subset == s], for [subset] a string or [None]. *)
Definition is_subset (subset : option string) (s : string) : bool :=
  match subset with
  | Some x => String.eqb x s
  | None => false
  end.

(** [__init__], from the object [self] that [super().__init__] built. *)
Definition init (self : t) (subset : option string) : option t :=
  if is_subset subset "validation" then
    match load_list self "validation_list.txt" with
    | Some l => Some {| _path := _path self; _walker := l |}
    | None => None
    end
  else if is_subset subset "testing" then
    match load_list self "testing_list.txt" with
    | Some l => Some {| _path := _path self; _walker := l |}
    | None => None
    end
  else if is_subset subset "training" then
    match load_list self "validation_list.txt" with
    | None => None
    | Some v =>
        match load_list self "testing_list.txt" with
        | None => None
        | Some t =>
            let excludes := (v ++ t)%list in
            Some {| _path := _path self;
                    _walker := filter (not_in excludes) (_walker self) |}
        end
    end
  else Some self.

End Dataset.
End SubsetSC.


Module SubsetSCFacts.
Import String.

Section DatasetFacts.
Variable File : Type.
Variable open : string -> option File.
Variable lines : File -> option (list string).
Variable join : string -> string -> string.
Variable normpath : string -> string.
Variable strip : string -> string.

Local Abbreviation load_list :=
  (SubsetSC.load_list File open lines join normpath strip).
Local Abbreviation init := (SubsetSC.init File open lines join normpath strip).
Local Abbreviation cannot_load := (SubsetSC.cannot_load File open lines join).

Lemma load_list_fails (self : SubsetSC.t) (filename : string) :
  load_list self filename = None <-> cannot_load self filename.
Proof.
  unfold SubsetSC.load_list, SubsetSC.cannot_load.
  destruct (open (join (SubsetSC._path self) filename)) as [f|].
  - destruct (lines f) as [ls|] eqn:E; split; intros H; try discriminate;
      try reflexivity.
    + destruct H as [H|(f' & H & H')]; [discriminate|].
      injection H as <-. congruence.
    + right. exists f. split; [reflexivity|exact E].
  - split; intros _; [left|]; reflexivity.
Qed.

Lemma not_in_spec (excludes : list string) (w : string) :
  SubsetSC.not_in excludes w = true <-> ~ In w excludes.
Proof.
  unfold SubsetSC.not_in. rewrite negb_true_iff. split.
  - intros H Hin. assert (E : existsb (String.eqb w) excludes = true).
    { apply existsb_exists. exists w. split; [exact Hin|apply String.eqb_refl]. }
    congruence.
  - intros H. destruct (existsb (String.eqb w) excludes) eqn:E; [|reflexivity].
    apply existsb_exists in E. destruct E as (x & Hx & Heq).
    apply String.eqb_eq in Heq. subst x. contradiction.
Qed.

(** X1: the training subset: when both list files can be read, the walker is
    the base walker, in its order, without the files named in the
    validation list or in the testing list, and with nothing else removed;
    the root path is kept. *)
Theorem training_excludes_held_out (self : SubsetSC.t) (v t : list string) :
  load_list self "validation_list.txt" = Some v ->
  load_list self "testing_list.txt" = Some t ->
  exists d,
    init self (Some "training"%string) = Some d /\
    SubsetSC._path d = SubsetSC._path self /\
    (exists keep, SubsetSC._walker d = filter keep (SubsetSC._walker self)) /\
    forall w, In w (SubsetSC._walker d) <->
              In w (SubsetSC._walker self) /\ ~ In w v /\ ~ In w t.
Proof.
  intros Hv Ht. unfold SubsetSC.init. simpl SubsetSC.is_subset.
  rewrite Hv, Ht. eexists. split; [reflexivity|]. simpl.
  split; [reflexivity|]. split; [eexists; reflexivity|].
  intros w. rewrite filter_In, not_in_spec, in_app_iff. tauto.
Qed.

(** X2: the three subsets of one data set do not overlap: no file of the
    training subset is in the validation subset or in the testing subset. *)
Theorem training_disjoint_from_held_out (self dtrain dval dtest : SubsetSC.t) :
  init self (Some "training"%string) = Some dtrain ->
  init self (Some "validation"%string) = Some dval ->
  init self (Some "testing"%string) = Some dtest ->
  forall w, In w (SubsetSC._walker dtrain) ->
            ~ In w (SubsetSC._walker dval) /\ ~ In w (SubsetSC._walker dtest).
Proof.
  unfold SubsetSC.init. simpl SubsetSC.is_subset. cbv iota.
  destruct (load_list self "validation_list.txt") as [v|]; [|discriminate].
  destruct (load_list self "testing_list.txt") as [t|]; [|discriminate].
  intros H1 H2 H3. injection H1 as <-. injection H2 as <-. injection H3 as <-.
  simpl. intros w. rewrite filter_In, not_in_spec, in_app_iff. tauto.
Qed.

(** X3: any other value of [subset] ([None], or a string that is none of the
    three names) reads no file, cannot fail and leaves the object as the
    base class built it. *)
Theorem other_subset_keeps_everything (self : SubsetSC.t)
    (subset : option string) :
  subset <> Some "validation"%string ->
  subset <> Some "testing"%string ->
  subset <> Some "training"%string ->
  init self subset = Some self.
Proof.
  intros Hv Ht Htr. unfold SubsetSC.init.
  assert (E : forall s, subset <> Some s -> SubsetSC.is_subset subset s = false).
  { intros s Hs. destruct subset as [x|]; [|reflexivity]. simpl.
    apply String.eqb_neq. congruence. }
  rewrite (E _ Hv), (E _ Ht), (E _ Htr). reflexivity.
Qed.

(** X4: building the training subset fails exactly when the validation
    list or the testing list cannot be loaded, that is, cannot be opened or,
    once opened, cannot be read; the validation subset needs only the
    validation list, the testing subset only the testing list. *)
Theorem subset_fails_iff_list_missing (self : SubsetSC.t) :
  (init self (Some "training"%string) = None <->
   cannot_load self "validation_list.txt" \/
   cannot_load self "testing_list.txt") /\
  (init self (Some "validation"%string) = None <->
   cannot_load self "validation_list.txt") /\
  (init self (Some "testing"%string) = None <->
   cannot_load self "testing_list.txt").
Proof.
  rewrite <- !load_list_fails.
  unfold SubsetSC.init. simpl SubsetSC.is_subset. cbv iota.
  destruct (load_list self "validation_list.txt");
    destruct (load_list self "testing_list.txt");
    repeat split; intros; try discriminate; try reflexivity; auto;
    try (destruct H; discriminate).
Qed.

(** X13: the validation and testing subsets do not depend on the files the base
    class found: two objects with the same root get the same walker, the
    lines of the list file in file order. *)
Theorem held_out_ignores_walker (self self' : SubsetSC.t) (subset : string) :
  subset = "validation"%string \/ subset = "testing"%string ->
  SubsetSC._path self = SubsetSC._path self' ->
  option_map SubsetSC._walker (init self (Some subset))
  = option_map SubsetSC._walker (init self' (Some subset)) /\
  forall d, init self (Some subset) = Some d ->
    exists fileobj ls,
      open (join (SubsetSC._path self) (subset ++ "_list.txt")) = Some fileobj /\
      lines fileobj = Some ls /\
      SubsetSC._walker d
      = map (fun line => normpath (join (SubsetSC._path self) (strip line)))
            ls.
Proof.
  intros [-> | ->] Hp; unfold SubsetSC.init, SubsetSC.load_list;
    simpl SubsetSC.is_subset; cbv iota; rewrite <- Hp; simpl append;
    match goal with
    | |- context [open ?f] => destruct (open f) as [fileobj|]
    end; simpl; try (split; [reflexivity|]; intros d H; discriminate);
    destruct (lines fileobj) as [ls|] eqn:E; simpl;
    (split; [reflexivity|]); intros d H; try discriminate;
    injection H as <-; exists fileobj, ls; repeat split; exact E.
Qed.

End DatasetFacts.
End SubsetSCFacts.

(** A small file system for concrete subsets. *)
Module DemoFiles.
Import String.

Definition join (a b : string) : string := (a ++ "/" ++ b)%string.

(** A file object is the text of the file, line by line, when it can be
    decoded. *)
Definition File : Type := option (list string).

Definition open (f : string) : option File :=
  if String.eqb f "data/validation_list.txt"%string
  then Some (Some ["yes/a.wav"; "no/b.wav"]%string)
  else if String.eqb f "data/testing_list.txt"%string
  then Some (Some ["yes/c.wav"]%string)
  else None.

Definition lines (fileobj : File) : option (list string) := fileobj.

Definition base : SubsetSC.t :=
  {| SubsetSC._path := "data"%string;
     SubsetSC._walker := ["data/yes/a.wav"; "data/yes/c.wav"; "data/yes/d.wav";
                          "data/no/b.wav"; "data/no/e.wav"]%string |}.

Definition init :=
  SubsetSC.init File open lines join (fun s => s) (fun s => s).
Definition load_list :=
  SubsetSC.load_list File open lines join (fun s => s) (fun s => s).

Lemma training_excludes_held_out_witness :
  exists d,
    init base (Some "training"%string) = Some d /\
    SubsetSC._path d = SubsetSC._path base /\
    (exists keep, SubsetSC._walker d = filter keep (SubsetSC._walker base)) /\
    forall w, In w (SubsetSC._walker d) <->
              In w (SubsetSC._walker base) /\
              ~ In w ["data/yes/a.wav"; "data/no/b.wav"]%string /\
              ~ In w ["data/yes/c.wav"]%string.
Proof.
  apply (SubsetSCFacts.training_excludes_held_out File open lines join
           (fun s => s) (fun s => s) base); reflexivity.
Defined.

Lemma training_disjoint_from_held_out_witness :
  ~ In "data/yes/d.wav"%string ["data/yes/a.wav"; "data/no/b.wav"]%string /\
  ~ In "data/yes/d.wav"%string ["data/yes/c.wav"]%string.
Proof.
  apply (SubsetSCFacts.training_disjoint_from_held_out File open lines join
           (fun s => s) (fun s => s) base
           {| SubsetSC._path := "data"%string;
              SubsetSC._walker := ["data/yes/d.wav"; "data/no/e.wav"]%string |}
           {| SubsetSC._path := "data"%string;
              SubsetSC._walker := ["data/yes/a.wav"; "data/no/b.wav"]%string |}
           {| SubsetSC._path := "data"%string;
              SubsetSC._walker := ["data/yes/c.wav"]%string |}).
  - reflexivity.
  - reflexivity.
  - reflexivity.
  - simpl. left. reflexivity.
Defined.

Lemma other_subset_keeps_everything_witness :
  init base (Some "train"%string) = Some base.
Proof.
  apply (SubsetSCFacts.other_subset_keeps_everything File open lines join
           (fun s => s) (fun s => s) base (Some "train"%string)); discriminate.
Defined.

Lemma held_out_ignores_walker_witness :
  let other := {| SubsetSC._path := "data"%string; SubsetSC._walker := [] |} in
  option_map SubsetSC._walker (init base (Some "testing"%string))
  = option_map SubsetSC._walker (init other (Some "testing"%string)) /\
  forall d, init base (Some "testing"%string) = Some d ->
    exists fileobj ls,
      open (join (SubsetSC._path base) ("testing" ++ "_list.txt")%string)
      = Some fileobj /\
      lines fileobj = Some ls /\
      SubsetSC._walker d
      = map (fun line => join (SubsetSC._path base) line) ls.
Proof.
  intros other.
  apply (SubsetSCFacts.held_out_ignores_walker File open lines join
           (fun s => s) (fun s => s) base other "testing"%string).
  - right. reflexivity.
  - reflexivity.
Defined.

End DemoFiles.

(** * Further properties of the constructors *)

(** The width a layer list hands on: every [BatchNorm2d] and every
    [Conv2d] must be built for the channel count that reaches it; [None]
    when a layer is not. *)
Fixpoint chain (width : Z) (layers : list layer) : option Z :=
  match layers with
  | [] => Some width
  | BatchNorm2d n _ :: rest => if n =? width then chain width rest else None
  | ReLU :: rest => chain width rest
  | Dropout _ :: rest => chain width rest
  | Conv2d i o _ :: rest => if i =? width then chain o rest else None
  end.

(** The channel count the last layer of a block is built to return. *)
Definition out_features {FW : Framework} (b : irevnet_block.t) : option Z :=
  match last (irevnet_block.layers b) ReLU with
  | Conv2d _ o _ => Some o
  | _ => None
  end.

(** The channel count the [BatchNorm2d] that opens the first block of a
    stack is built for (a block with [first=False] has one): half the input
    channel count of the first scheduled block, after padding. *)
Definition first_width (nChannels nBlocks nStrides : list Z) (in_ch : Z) : Z :=
  match expand nChannels nBlocks nStrides [] [] with
  | (stride :: _, channel :: _) =>
      (if negb (2 * channel - in_ch =? 0) && (stride =? 1)
       then channel * 2 else in_ch) / 2
  | _ => 0
  end.

Section ConstructorErrors.
Context {FW : Framework}.

(** X5: [iRevNet(...)] without [in_shape] (its default [None]) raises
    [TypeError], and with an [in_shape] of fewer than three entries raises
    [IndexError], whatever the other arguments are. *)
Theorem init_needs_in_shape {Logits : Type}
    (seq : nat -> list layer -> Tensor -> Tensor)
    (mk_head : layer -> Z -> Z * Z -> Tensor -> result Logits)
    (nBlocks nStrides : list Z) (nClasses : Z) (nChannels : option (list Z))
    (init_ds : nat) (dropout_rate : Q) (affineBN : bool)
    (in_shape : list Z) (mult : Z) :
  (length in_shape < 3)%nat ->
  iRevNet.init seq mk_head nBlocks nStrides nClasses nChannels init_ds
    dropout_rate affineBN None mult = Raise TypeError /\
  iRevNet.init seq mk_head nBlocks nStrides nClasses nChannels init_ds
    dropout_rate affineBN (Some in_shape) mult = Raise IndexError.
Proof.
  intros Hlen. split; [reflexivity|].
  unfold iRevNet.init, iRevNet.subscript.
  destruct (nth_error in_shape 2) eqn:E; [|reflexivity].
  assert (2 < length in_shape)%nat
    by (apply nth_error_Some; rewrite E; discriminate).
  lia.
Qed.

Lemma no_channel_iff (stgs : list (Z * (Z * Z))) :
  flat_map (fun st => times (fst st) (fst (snd st))) stgs = []
  <-> existsb (fun st => 1 <=? fst (snd st)) stgs = false.
Proof.
  induction stgs as [|[c [d s]] stgs IH]; [simpl; tauto|].
  cbn [flat_map existsb fst snd]. rewrite orb_false_iff, <- IH.
  unfold times at 1. split.
  - intros H. apply app_eq_nil in H. destruct H as [H1 H2].
    split; [|exact H2]. apply Z.leb_gt.
    destruct (Z.to_nat d) eqn:E; [lia|discriminate].
  - intros [H1 H2]. apply Z.leb_gt in H1. rewrite H2.
    replace (Z.to_nat d) with O by lia. reflexivity.
Qed.

(** X6: with [mult = 0] the stack cannot be built as soon as one block is
    scheduled: the first block raises.  It raises [ZeroDivisionError], from
    [out_ch // mult], unless the stack starts with [self.first] false and
    the [BatchNorm2d] that opens the block, which is built before the
    division is evaluated, is refused for a negative channel count; then
    the exception is that [RuntimeError].  When no zipped stage has a
    positive block count, no block is built, nothing is raised and
    [self.first] is left as it was. *)
Theorem zero_mult_raises (seq : nat -> list layer -> Tensor -> Tensor)
    (first : bool) (nChannels nBlocks nStrides : list Z) (dropout_rate : Q)
    (affineBN : bool) (in_ch : Z) :
  iRevNet.irevnet_stack seq first nChannels nBlocks nStrides dropout_rate
    affineBN in_ch 0
  = if existsb (fun st => 1 <=? fst (snd st))
         (Described.stages nChannels nBlocks nStrides)
    then if negb first
            && (first_width nChannels nBlocks nStrides in_ch <? 0)
         then Raise RuntimeError
         else Raise ZeroDivisionError
    else Ok ([], first).
Proof.
  unfold iRevNet.irevnet_stack, first_width. rewrite expand_stages.
  simpl app.
  pose proof (no_channel_iff (Described.stages nChannels nBlocks nStrides))
    as Hiff.
  destruct (flat_map (fun st => times (fst st) (fst (snd st)))
              (Described.stages nChannels nBlocks nStrides))
    as [|c cs] eqn:Ec.
  - rewrite (proj1 Hiff eq_refl). reflexivity.
  - destruct (existsb _ _) eqn:Ex.
    + destruct (Described.stages nChannels nBlocks nStrides)
        as [|[c0 [d0 s0]] stgs]; [discriminate Ec|].
      cbn [flat_map app fst snd iRevNet.build].
      unfold_init. destruct first; cbn [negb andb]; [reflexivity|].
      destruct (_ <? 0); reflexivity.
    + discriminate (proj2 Hiff eq_refl).
Qed.

End ConstructorErrors.

Lemma init_needs_in_shape_witness :
  iRevNet.init demo_seq demo_head [2; 2; 2] [1; 2; 2] 10
    (Some [16; 64; 256]) 0 (1 # 10) true None 4 = Raise TypeError /\
  iRevNet.init demo_seq demo_head [2; 2; 2] [1; 2; 2] 10
    (Some [16; 64; 256]) 0 (1 # 10) true (Some [3; 32]) 4 = Raise IndexError.
Proof.
  apply (init_needs_in_shape (FW := signals) demo_seq demo_head
           [2; 2; 2] [1; 2; 2] 10 (Some [16; 64; 256]) 0 (1 # 10) true
           [3; 32] 4).
  simpl. lia.
Defined.

Section BlockStructure.
Context {FW : Framework}.

(** X7: the layers of a block fit one another.  Every normalisation and
    convolution is built for the channel count that reaches it, from the
    first layer, which takes half the (possibly padded) input channels, to
    the last, which returns [out_ch] channels; a first block has 8 layers,
    any other the 2 prologue layers more; at stride 1 the transform takes
    [out_ch] channels whatever [in_ch] is. *)
Theorem bottleneck_layers_fit (seq : list layer -> Tensor -> Tensor)
    (in_ch out_ch stride : Z) (first : bool) (dropout_rate : Q)
    (affineBN : bool) (mult : Z) (b : irevnet_block.t) :
  irevnet_block.init seq in_ch out_ch stride first dropout_rate affineBN mult
  = Ok b ->
  let width := (if irevnet_block.pads b then out_ch * 2 else in_ch) / 2 in
  chain width (irevnet_block.layers b) = Some out_ch /\
  out_features b = Some out_ch /\
  length (irevnet_block.layers b) = (if first then 8 else 10)%nat /\
  (stride = 1 -> width = out_ch).
Proof.
  intros Hinit width.
  assert (Hpads : irevnet_block.pads b
                  = negb (2 * out_ch - in_ch =? 0) && (stride =? 1)).
  { destruct (init_fields _ _ _ _ _ _ _ _ _ Hinit) as (Hp & _ & Hs & _).
    unfold irevnet_block.pads. now rewrite Hp, Hs. }
  unfold width. rewrite Hpads. clear width Hpads.
  destruct (init_layers _ _ _ _ _ _ _ _ _ Hinit) as (Hl & _ & _).
  unfold out_features. rewrite Hl. clear Hl.
  repeat split.
  - destruct first; cbn [app chain]; rewrite !Z.eqb_refl; reflexivity.
  - destruct first; reflexivity.
  - destruct first; reflexivity.
  - intros ->. destruct (2 * out_ch - in_ch =? 0) eqn:E; cbn [negb andb].
    + apply Z.eqb_eq in E. replace in_ch with (out_ch * 2) by lia.
      apply Z.div_mul. lia.
    + change (1 =? 1) with true. cbv iota. apply Z.div_mul. lia.
Qed.

Lemma cadd_neg_r (a : Chan) : cadd a (cneg a) = czero.
Proof.
  rewrite <- (cadd_zero_l (cadd a (cneg a))).
  rewrite <- (cadd_neg_l (cneg a)) at 1.
  rewrite <- cadd_assoc, (cadd_assoc (cneg a) a (cneg a)).
  rewrite cadd_neg_l, cadd_zero_l. apply cadd_neg_l.
Qed.

Lemma zip_add_cancel_r (f y : Tensor) :
  length f = length y -> zip_add f (zip_add (tneg f) y) = y.
Proof.
  revert y. induction f as [|c f IH]; intros [|d y] H; simpl in *;
    try discriminate; auto.
  rewrite cadd_assoc, cadd_neg_r, cadd_zero_l, IH by lia. reflexivity.
Qed.

(** X8: a block that neither pads nor permutes (stride other than 2) is
    onto: every output pair [(x2, y1)] whose second half has the channel
    count F returns on [x2] is the image under [forward] of the pair
    [inverse] returns for it. *)
Theorem block_forward_inverse (b : irevnet_block.t) (x2 y1 : Tensor) :
  irevnet_block.pads b = false ->
  irevnet_block.stride b <> 2 ->
  length (irevnet_block.bottleneck_block b x2) = length y1 ->
  exists x1,
    irevnet_block.inverse b (x2, y1) = Ok (x1, x2) /\
    irevnet_block.forward b (x1, x2) = Ok (x2, y1).
Proof.
  intros Hp Hs HF. apply Z.eqb_neq in Hs.
  exists (zip_add (tneg (irevnet_block.bottleneck_block b x2)) y1).
  unfold irevnet_block.inverse, irevnet_block.forward.
  rewrite Hp, Hs. simpl fst; simpl snd. split.
  - rewrite tadd_same by (now rewrite tneg_length). reflexivity.
  - unfold bind at 1. simpl fst; simpl snd.
    rewrite tadd_same
      by (rewrite zip_add_length; [exact HF|now rewrite tneg_length]).
    unfold bind. now rewrite zip_add_cancel_r.
Qed.

End BlockStructure.

Lemma bottleneck_layers_fit_witness :
  exists b,
    irevnet_block.init (FW := signals) (demo_seq 0) 3 16 1 true (1 # 10) true 4
    = Ok b /\
    let width := (if irevnet_block.pads b then 16 * 2 else 3) / 2 in
    chain width (irevnet_block.layers b) = Some 16 /\
    out_features b = Some 16 /\
    length (irevnet_block.layers b) = 8%nat /\
    (1 = 1 -> width = 16).
Proof.
  eexists. split; [reflexivity|].
  apply (bottleneck_layers_fit (FW := signals) (demo_seq 0)
           3 16 1 true (1 # 10) true 4).
  reflexivity.
Defined.

Lemma block_forward_inverse_witness :
  let x2 : @Tensor signals := [Signal.const 1; ramp] in
  let y1 : @Tensor signals := [Signal.const 3; Signal.const 4] in
  exists b,
    irevnet_block.init (FW := signals) (wide_seq 0) 4 2 1 false 0%Q true 1
    = Ok b /\
    exists x1,
      irevnet_block.inverse b (x2, y1) = Ok (x1, x2) /\
      irevnet_block.forward b (x1, x2) = Ok (x2, y1).
Proof.
  intros x2 y1. eexists. split; [reflexivity|].
  apply (block_forward_inverse (FW := signals)).
  - reflexivity.
  - simpl. discriminate.
  - reflexivity.
Defined.

Section StackInGeneral.
Context {FW : Framework}.

Lemma init_out_features (seq : list layer -> Tensor -> Tensor)
    (in_ch out_ch stride : Z) (first : bool) (dropout_rate : Q)
    (affineBN : bool) (mult : Z) (b : irevnet_block.t) :
  irevnet_block.init seq in_ch out_ch stride first dropout_rate affineBN mult
  = Ok b ->
  out_features b = Some out_ch.
Proof.
  intros H. destruct (init_layers _ _ _ _ _ _ _ _ _ H) as (Hl & _ & _).
  unfold out_features. rewrite Hl. destruct first; reflexivity.
Qed.

(** The block loop on any two lists: one block per zipped pair. *)
Lemma build_fields (seq : nat -> list layer -> Tensor -> Tensor)
    (dropout_rate : Q) (affineBN : bool) (mult : Z) :
  forall channels strides i in_ch first acc res f,
  iRevNet.build seq channels strides dropout_rate affineBN mult i in_ch
    first acc = Ok (res, f) ->
  exists blocks,
    res = acc ++ blocks /\
    f = first && (length blocks =? 0)%nat /\
    map irevnet_block.stride blocks = map snd (combine channels strides) /\
    map out_features blocks
    = map (fun p => Some (fst p)) (combine channels strides) /\
    map irevnet_block.first blocks
    = match blocks with
      | [] => []
      | _ :: rest => first :: repeat false (length rest)
      end.
Proof.
  intros channels.
  induction channels as [|c cs IH]; intros [|s ss] i in_ch first acc res f H;
    try (simpl in H; injection H as <- <-; exists [];
         rewrite app_nil_r, andb_true_r; repeat split; reflexivity).
  cbn [iRevNet.build] in H.
  destruct (irevnet_block.init (seq i) in_ch c s first dropout_rate affineBN
              mult) as [b|e] eqn:Hb; [|discriminate].
  unfold bind in H.
  destruct (IH ss (S i) (2 * c) false (acc ++ [b]) res f H)
    as (blocks & -> & -> & Hstr & Hout & Hfirst).
  exists (b :: blocks). rewrite <- app_assoc.
  cbn [app combine map fst snd length].
  rewrite andb_false_r. split; [reflexivity|]. split; [reflexivity|].
  destruct (init_fields _ _ _ _ _ _ _ _ _ Hb) as (_ & _ & Hs & _ & Hf).
  rewrite Hstr, Hout, Hs, Hf, (init_out_features _ _ _ _ _ _ _ _ _ Hb).
  repeat split. f_equal. rewrite Hfirst.
  destruct blocks; reflexivity.
Qed.

Lemma combine_fst_le {A B : Type} (a : list A) (b : list B) :
  (length a <= length b)%nat ->
  map fst (combine a b) = a /\ map snd (combine a b) = firstn (length a) b.
Proof.
  revert b. induction a as [|x a IH]; intros [|y b] H; simpl in *;
    try lia; auto.
  destruct (IH b) as [H1 H2]; [lia|]. now rewrite H1, H2.
Qed.

Lemma scheduled_lengths (stgs : list (Z * (Z * Z))) :
  (length (flat_map (fun st => times (fst st) (fst (snd st))) stgs)
   <= length (flat_map (fun st => [snd (snd st)] ++ times 1 (fst (snd st) - 1))
                stgs))%nat.
Proof.
  induction stgs as [|[c [d s]] stgs IH]; [simpl; lia|].
  cbn [flat_map fst snd]. rewrite !length_app.
  assert (Hst : (length (times c d) <= length ([s] ++ times 1 (d - 1)))%nat).
  { unfold times. rewrite length_app, !repeat_length. simpl. lia. }
  rewrite length_app in Hst. lia.
Qed.

(** X9: for schedule lists of any lengths and any block counts, and values
    the layer constructors accept, the stack is built, with one block per
    scheduled channel and in that order, so the block channel counts are
    never shifted; block [i] takes the [i]-th scheduled stride, and the
    strides scheduled beyond the last block are dropped. *)
Theorem stack_follows_channels (seq : nat -> list layer -> Tensor -> Tensor)
    (first : bool) (nChannels nBlocks nStrides : list Z) (dropout_rate : Q)
    (affineBN : bool) (in_ch mult : Z) :
  accepted nChannels in_ch mult dropout_rate ->
  exists blocks f,
    iRevNet.irevnet_stack seq first nChannels nBlocks nStrides dropout_rate
      affineBN in_ch mult = Ok (blocks, f) /\
    map out_features blocks
    = map Some (snd (expand nChannels nBlocks nStrides [] [])) /\
    map irevnet_block.stride blocks
    = firstn (length blocks) (fst (expand nChannels nBlocks nStrides [] [])) /\
    (length blocks <= length (fst (expand nChannels nBlocks nStrides [] [])))%nat.
Proof.
  intros Hacc. unfold iRevNet.irevnet_stack.
  rewrite expand_stages. cbn [app fst snd].
  pose proof (scheduled_lengths (Described.stages nChannels nBlocks nStrides))
    as Hle.
  pose proof (accepted_schedule nChannels nBlocks nStrides _ _ _ Hacc)
    as Hacc'.
  set (cs := flat_map (fun st => times (fst st) (fst (snd st)))
               (Described.stages nChannels nBlocks nStrides)) in *.
  set (ss := flat_map (fun st => [snd (snd st)] ++ times 1 (fst (snd st) - 1))
               (Described.stages nChannels nBlocks nStrides)) in *.
  destruct (build_total seq cs ss dropout_rate affineBN mult O in_ch first []
              Hacc') as (res & f & Hb).
  destruct (build_fields seq dropout_rate affineBN mult cs ss O in_ch first
              [] res f Hb)
    as (blocks & -> & -> & Hstr & Hout & _).
  destruct (combine_fst_le cs ss Hle) as [Hfst Hsnd].
  assert (Hlen : length blocks = length cs).
  { apply (f_equal (@length _)) in Hstr.
    rewrite !length_map, length_combine in Hstr. lia. }
  exists blocks, (first && (length blocks =? 0)%nat).
  split; [exact Hb|]. split; [|split].
  - rewrite Hout.
    transitivity (map Some (map fst (combine cs ss)));
      [now rewrite map_map|now rewrite Hfst].
  - rewrite Hstr, Hsnd, Hlen. reflexivity.
  - rewrite Hlen. exact Hle.
Qed.

(** X10: the flag [self.first] is consumed by the first block built:
    whatever the schedule (of values the layer constructors accept), the
    first block gets the value the flag had and every later block gets
    [False]; the flag is [False] afterwards unless no block was built, in
    which case it is unchanged. *)
Theorem first_flag_consumed (seq : nat -> list layer -> Tensor -> Tensor)
    (first : bool) (nChannels nBlocks nStrides : list Z) (dropout_rate : Q)
    (affineBN : bool) (in_ch mult : Z) :
  accepted nChannels in_ch mult dropout_rate ->
  exists blocks f,
    iRevNet.irevnet_stack seq first nChannels nBlocks nStrides dropout_rate
      affineBN in_ch mult = Ok (blocks, f) /\
    f = first && (length blocks =? 0)%nat /\
    map irevnet_block.first blocks
    = match blocks with
      | [] => []
      | _ :: rest => first :: repeat false (length rest)
      end.
Proof.
  intros Hacc. unfold iRevNet.irevnet_stack.
  rewrite expand_stages. cbn [app fst snd].
  destruct (build_total seq _ (flat_map
              (fun st => [snd (snd st)] ++ times 1 (fst (snd st) - 1))
              (Described.stages nChannels nBlocks nStrides))
              dropout_rate affineBN mult O in_ch first []
              (accepted_schedule nChannels nBlocks nStrides _ _ _ Hacc))
    as (res & f & Hb).
  destruct (build_fields seq dropout_rate affineBN mult _ _ O in_ch first
              [] res f Hb)
    as (blocks & -> & -> & _ & _ & Hfirst).
  exists blocks, (first && (length blocks =? 0)%nat).
  split; [exact Hb|]. split; [reflexivity|exact Hfirst].
Qed.

End StackInGeneral.

Lemma stack_follows_channels_witness :
  exists blocks f,
    iRevNet.irevnet_stack demo_seq true [8; 16; 32] [0; 2] [2; 1; 2] 0%Q
      true 16 4 = Ok (blocks, f) /\
    map out_features blocks
    = map Some (snd (expand [8; 16; 32] [0; 2] [2; 1; 2] [] [])) /\
    map irevnet_block.stride blocks
    = firstn (length blocks) (fst (expand [8; 16; 32] [0; 2] [2; 1; 2] [] [])) /\
    Nat.le (length blocks)
           (length (fst (expand [8; 16; 32] [0; 2] [2; 1; 2] [] []))).
Proof.
  apply (stack_follows_channels (FW := signals) demo_seq true
           [8; 16; 32] [0; 2] [2; 1; 2] 0%Q true 16 4).
  repeat split; try reflexivity; try lia. repeat constructor; lia.
Defined.

Lemma first_flag_consumed_witness :
  exists blocks f,
    iRevNet.irevnet_stack demo_seq false [16; 64] [2; 1] [1; 2] 0%Q true 32 4
    = Ok (blocks, f) /\
    f = false && (length blocks =? 0)%nat /\
    map irevnet_block.first blocks
    = match blocks with
      | [] => []
      | _ :: rest => false :: repeat false (length rest)
      end.
Proof.
  apply (first_flag_consumed (FW := signals) demo_seq false
           [16; 64] [2; 1] [1; 2] 0%Q true 32 4).
  repeat split; try reflexivity; try lia. repeat constructor; lia.
Defined.

Section Defaults.
Context {FW : Framework}.

Lemma stack_out_features (seq : nat -> list layer -> Tensor -> Tensor)
    (first : bool) (nChannels nBlocks nStrides : list Z) (dropout_rate : Q)
    (affineBN : bool) (in_ch mult : Z) :
  accepted nChannels in_ch mult dropout_rate ->
  exists blocks f,
    iRevNet.irevnet_stack seq first nChannels nBlocks nStrides dropout_rate
      affineBN in_ch mult = Ok (blocks, f) /\
    map out_features blocks
    = map Some (snd (expand nChannels nBlocks nStrides [] [])).
Proof.
  intros Hacc. unfold iRevNet.irevnet_stack.
  rewrite expand_stages. cbn [app fst snd].
  pose proof (scheduled_lengths (Described.stages nChannels nBlocks nStrides))
    as Hle.
  pose proof (accepted_schedule nChannels nBlocks nStrides _ _ _ Hacc)
    as Hacc'.
  set (cs := flat_map (fun st => times (fst st) (fst (snd st)))
               (Described.stages nChannels nBlocks nStrides)) in *.
  set (ss := flat_map (fun st => [snd (snd st)] ++ times 1 (fst (snd st) - 1))
               (Described.stages nChannels nBlocks nStrides)) in *.
  destruct (build_total seq cs ss dropout_rate affineBN mult O in_ch first []
              Hacc') as (res & f & Hb).
  destruct (build_fields seq dropout_rate affineBN mult cs ss O in_ch first
              [] res f Hb)
    as (blocks & -> & -> & _ & Hout & _).
  destruct (combine_fst_le cs ss Hle) as [Hfst _].
  exists blocks, (first && (length blocks =? 0)%nat).
  split; [exact Hb|]. rewrite Hout.
  transitivity (map Some (map fst (combine cs ss)));
    [now rewrite map_map|now rewrite Hfst].
Qed.

(** C10: with [nChannels] omitted or empty the channel schedule is the
    four-stage list [[in_ch//2, in_ch//2*4, in_ch//2*16, in_ch//2*64]] with
    [in_ch = in_shape[0] * 2**init_ds], whatever the block counts and the
    strides and however many of them there are.  For an input shape of
    three entries with a non-negative channel count, a positive [mult], a
    non-negative class count and a dropout probability, the constructor
    returns a network: its stack is the one [irevnet_stack] builds from
    that list, block by block with the output channel counts the list
    schedules, and its head is sized by the last entry of the list. *)
Theorem default_channel_schedule {Logits : Type}
    (seq : nat -> list layer -> Tensor -> Tensor)
    (mk_head : layer -> Z -> Z * Z -> Tensor -> result Logits)
    (nBlocks nStrides : list Z) (nClasses : Z) (nChannels : option (list Z))
    (init_ds : nat) (dropout_rate : Q) (affineBN : bool)
    (in_shape : list Z) (c0 h mult : Z) :
  nChannels = None \/ nChannels = Some [] ->
  nth_error in_shape 0 = Some c0 ->
  nth_error in_shape 2 = Some h ->
  0 <= c0 -> 0 < mult -> 0 <= nClasses ->
  Qle_bool 0 dropout_rate = true -> Qle_bool dropout_rate 1 = true ->
  let in_ch := c0 * 2 ^ Z.of_nat init_ds in
  let default := [in_ch / 2; in_ch / 2 * 4; in_ch / 2 * 16; in_ch / 2 * 64] in
  exists net,
    iRevNet.init seq mk_head nBlocks nStrides nClasses nChannels init_ds
      dropout_rate affineBN (Some in_shape) mult = Ok net /\
    iRevNet.in_ch net = in_ch /\
    iRevNet.irevnet_stack seq true default nBlocks nStrides dropout_rate
      affineBN in_ch mult = Ok (iRevNet.stack net, iRevNet.first net) /\
    map out_features (iRevNet.stack net)
    = map Some (snd (expand default nBlocks nStrides [] [])) /\
    iRevNet.bn1 net = BatchNorm2d (in_ch / 2 * 64 * 2) true /\
    iRevNet.linear net = (in_ch / 2 * 64 * 2, nClasses).
Proof.
  intros Hfalsy Hc0 Hh Hc Hm Hn Hp0 Hp1 in_ch default.
  assert (Hres : iRevNet.resolve_nChannels nChannels in_ch = default)
    by (destruct Hfalsy as [-> | ->]; reflexivity).
  assert (Hin : 0 <= in_ch).
  { unfold in_ch. apply Z.mul_nonneg_nonneg; [exact Hc|].
    apply Z.pow_nonneg. lia. }
  assert (Hhalf : 0 <= in_ch / 2) by (apply Z.div_pos; lia).
  assert (Hacc : accepted default in_ch mult dropout_rate).
  { repeat split; try assumption. unfold default.
    repeat constructor; lia. }
  destruct (stack_out_features seq true default nBlocks nStrides dropout_rate
              affineBN in_ch mult Hacc) as (blocks & f & Hst & Hout).
  unfold iRevNet.init, iRevNet.subscript. rewrite Hc0, Hh.
  unfold bind at 1 2. fold in_ch. rewrite Hres, Hst. unfold bind at 1.
  change (last default 0) with (in_ch / 2 * 64).
  unfold new_BatchNorm2d, new_Linear.
  replace (in_ch / 2 * 64 * 2 <? 0) with false by (symmetry; apply Z.ltb_ge; lia).
  replace (nClasses <? 0) with false by (symmetry; apply Z.ltb_ge; lia).
  cbn [orb bind]. eexists. split; [reflexivity|].
  cbn [iRevNet.in_ch iRevNet.stack iRevNet.first iRevNet.bn1 iRevNet.linear
       fst snd].
  repeat split; assumption.
Qed.

End Defaults.

Lemma default_channel_schedule_witness :
  let in_ch := 3 * 2 ^ Z.of_nat 2 in
  let default := [in_ch / 2; in_ch / 2 * 4; in_ch / 2 * 16; in_ch / 2 * 64] in
  exists net,
    iRevNet.init wide_seq demo_head [2; 2] [2; 2] 10 (Some []) 2 0%Q true
      (Some [3; 32; 32]) 4 = Ok net /\
    iRevNet.in_ch net = in_ch /\
    iRevNet.irevnet_stack wide_seq true default [2; 2] [2; 2] 0%Q true in_ch 4
    = Ok (iRevNet.stack net, iRevNet.first net) /\
    map out_features (iRevNet.stack net)
    = map Some (snd (expand default [2; 2] [2; 2] [] [])) /\
    iRevNet.bn1 net = BatchNorm2d (in_ch / 2 * 64 * 2) true /\
    iRevNet.linear net = (in_ch / 2 * 64 * 2, 10).
Proof.
  apply (default_channel_schedule (FW := signals) wide_seq demo_head
           [2; 2] [2; 2] 10 (Some []) 2 0%Q true [3; 32; 32] 3 32 4);
    try reflexivity; try lia.
  right. reflexivity.
Defined.

Section HeadSize.
Context {FW : Framework}.

Lemma last_app_nonempty {A : Type} (l1 l2 : list A) (d : A) :
  l2 <> [] -> last (l1 ++ l2) d = last l2 d.
Proof.
  intros H. induction l1 as [|x l1 IH]; [reflexivity|].
  simpl. destruct (l1 ++ l2) eqn:E; [|exact IH].
  apply app_eq_nil in E. destruct E as [_ E]. contradiction.
Qed.

Lemma last_repeat {A : Type} (a d : A) (n : nat) :
  last (repeat a (S n)) d = a.
Proof. induction n as [|n IH]; [reflexivity|]. simpl in *. exact IH. Qed.

Lemma last_scheduled (nC nB nS : list Z) :
  length nC = length nB -> length nB = length nS ->
  Forall (fun d => 1 <= d) nB -> nC <> [] ->
  flat_map (fun st => times (fst st) (fst (snd st)))
    (Described.stages nC nB nS) <> [] /\
  last (flat_map (fun st => times (fst st) (fst (snd st)))
          (Described.stages nC nB nS)) 0
  = last nC 0.
Proof.
  revert nB nS.
  induction nC as [|c nC IH]; intros [|d nB] [|s nS] H1 H2 HF Hne;
    simpl in H1, H2; try discriminate; [contradiction|].
  inversion HF as [|? ? Hd HF']; subst.
  unfold Described.stages. cbn [combine flat_map fst snd].
  fold (Described.stages nC nB nS).
  assert (Ht : times c d = repeat c (S (Z.to_nat (d - 1)))).
  { unfold times. f_equal. lia. }
  split; [rewrite Ht; discriminate|].
  destruct nC as [|c' nC].
  - unfold Described.stages. simpl flat_map. rewrite app_nil_r, Ht.
    apply last_repeat.
  - destruct (IH nB nS) as [Hn Hl]; try assumption; try lia; [discriminate|].
    rewrite last_app_nonempty by exact Hn. rewrite Hl. reflexivity.
Qed.

Lemma last_of_map {A B : Type} (f : A -> B) (l : list A) (l' : list B)
    (a : A) (d : B) :
  map f l = l' -> nth_error l (length l - 1) = Some a -> f a = last l' d.
Proof.
  intros <-. revert a. induction l as [|x l IH]; intros a H; [discriminate|].
  destruct l as [|y l]; [simpl in H; injection H as <-; reflexivity|].
  change (last (map f (x :: y :: l)) d) with (last (map f (y :: l)) d).
  apply IH. simpl in H |- *. rewrite Nat.sub_0_r in *. exact H.
Qed.

(** X11: for an explicit, nonempty channel schedule with as many block
    counts and strides, all block counts at least 1, the classification
    head is sized for the bijective features: [bn1] and [linear] take twice
    the channel count that the last block of the stack returns. *)
Theorem head_matches_last_block {Logits : Type}
    (seq : nat -> list layer -> Tensor -> Tensor)
    (mk_head : layer -> Z -> Z * Z -> Tensor -> result Logits)
    (nBlocks nStrides : list Z) (nClasses : Z) (nChannels : list Z)
    (init_ds : nat) (dropout_rate : Q) (affineBN : bool)
    (in_shape : option (list Z)) (mult : Z) (net : iRevNet.t Logits) :
  iRevNet.init seq mk_head nBlocks nStrides nClasses (Some nChannels) init_ds
    dropout_rate affineBN in_shape mult = Ok net ->
  mult <> 0 -> nChannels <> [] ->
  length nChannels = length nBlocks -> length nBlocks = length nStrides ->
  Forall (fun depth => 1 <= depth) nBlocks ->
  exists b c,
    nth_error (iRevNet.stack net) (length (iRevNet.stack net) - 1) = Some b /\
    out_features b = Some c /\
    iRevNet.bn1 net = BatchNorm2d (c * 2) true /\
    iRevNet.linear net = (c * 2, nClasses).
Proof.
  intros Hinit Hm Hne H1 H2 HF.
  unfold iRevNet.init, bind in Hinit.
  destruct (iRevNet.subscript in_shape 2) as [h|]; [|discriminate].
  destruct (iRevNet.subscript in_shape 0) as [c0|]; [|discriminate].
  assert (Hres : iRevNet.resolve_nChannels (Some nChannels)
                   (c0 * 2 ^ Z.of_nat init_ds) = nChannels)
    by (destruct nChannels; [contradiction|reflexivity]).
  rewrite Hres in Hinit.
  unfold iRevNet.irevnet_stack in Hinit. rewrite expand_stages in Hinit.
  cbn [app] in Hinit. cbv beta iota zeta in Hinit.
  destruct (last_scheduled nChannels nBlocks nStrides H1 H2 HF Hne)
    as [Hcs Hlast].
  set (cs := flat_map (fun st => times (fst st) (fst (snd st)))
               (Described.stages nChannels nBlocks nStrides)) in *.
  set (ss := flat_map (fun st => snd (snd st) :: times 1 (fst (snd st) - 1))
               (Described.stages nChannels nBlocks nStrides)) in *.
  destruct (iRevNet.build seq cs ss dropout_rate affineBN mult 0
              (c0 * 2 ^ Z.of_nat init_ds) true []) as [[res f]|e] eqn:Hb;
    [|discriminate].
  destruct (build_fields seq dropout_rate affineBN mult cs ss O
              (c0 * 2 ^ Z.of_nat init_ds) true [] res f Hb)
    as (blocks & -> & -> & Hstr & Hout & _).
  unfold new_BatchNorm2d, new_Linear in Hinit.
  destruct (last nChannels 0 * 2 <? 0); [discriminate|].
  cbn [orb] in Hinit. destruct (nClasses <? 0); [discriminate|].
  injection Hinit as <-. cbn [iRevNet.stack
    iRevNet.bn1 iRevNet.linear fst snd app].
  assert (Hle : (length cs <= length ss)%nat)
    by apply (scheduled_lengths (Described.stages nChannels nBlocks nStrides)).
  destruct (combine_fst_le cs ss Hle) as [Hfst _].
  assert (Hout' : map out_features blocks = map Some cs).
  { rewrite Hout. transitivity (map Some (map fst (combine cs ss)));
      [now rewrite map_map|now rewrite Hfst]. }
  assert (Hlen : length blocks = length cs).
  { apply (f_equal (@length _)) in Hout'. now rewrite !length_map in Hout'. }
  destruct (nth_error blocks (length blocks - 1)) as [b|] eqn:Eb.
  - exists b, (last nChannels 0). split; [reflexivity|].
    split; [|split; reflexivity].
    rewrite (last_of_map out_features blocks (map Some cs) b None Hout' Eb).
    rewrite <- Hlast. clear -Hcs. induction cs as [|x cs IH]; [contradiction|].
    destruct cs as [|y cs]; [reflexivity|].
    change (last (map Some (x :: y :: cs)) None)
      with (last (map Some (y :: cs)) None).
    rewrite IH by discriminate. reflexivity.
  - exfalso. apply nth_error_None in Eb.
    destruct cs; [contradiction|]. simpl in Hlen. lia.
Qed.

End HeadSize.

Lemma head_matches_last_block_witness :
  exists net,
    iRevNet.init demo_seq demo_head [2; 2; 2] [1; 2; 2] 10
      (Some [16; 64; 256]) 0 (1 # 10) true (Some [3; 32; 32]) 4 = Ok net /\
    exists b c,
      nth_error (iRevNet.stack net) (length (iRevNet.stack net) - 1) = Some b /\
      out_features b = Some c /\
      iRevNet.bn1 net = BatchNorm2d (c * 2) true /\
      iRevNet.linear net = (c * 2, 10).
Proof.
  eexists. split; [reflexivity|].
  apply (head_matches_last_block (FW := signals) demo_seq demo_head
           [2; 2; 2] [1; 2; 2] 10 [16; 64; 256] 0 (1 # 10) true
           (Some [3; 32; 32]) 4).
  - reflexivity.
  - lia.
  - discriminate.
  - reflexivity.
  - reflexivity.
  - repeat constructor; lia.
Defined.

(** * The shipped configurations

    The functions [iRevNet18] ... [iRevNet8x384]: each ignores its keyword
    arguments and calls the constructor with fixed arguments. *)

Module Shipped.
Section Shipped.
Context {FW : Framework}.
Variable Logits : Type.
Variable seq : nat -> list layer -> Tensor -> Tensor.
Variable mk_head : layer -> Z -> Z * Z -> Tensor -> result Logits.

Definition iRevNet18 : result (iRevNet.t Logits) :=
  iRevNet.init seq mk_head [18; 18; 18] [1; 2; 2] 10 (Some [16; 64; 256])
    0 (1 # 10) true (Some [3; 32; 32]) 4.

Definition iRevNet9 : result (iRevNet.t Logits) :=
  iRevNet.init seq mk_head [9; 9; 9] [1; 2; 2] 10 (Some [16; 64; 256])
    0 (1 # 10) true (Some [3; 32; 32]) 4.

Definition iRevNet4 : result (iRevNet.t Logits) :=
  iRevNet.init seq mk_head [4; 4; 4] [1; 2; 2] 10 (Some [16; 64; 256])
    0 (1 # 10) true (Some [3; 32; 32]) 4.

Definition iRevNet2 : result (iRevNet.t Logits) :=
  iRevNet.init seq mk_head [2; 2; 2] [1; 2; 2] 10 (Some [16; 64; 256])
    0 (1 # 10) true (Some [3; 32; 32]) 4.

Definition iRevNet1 : result (iRevNet.t Logits) :=
  iRevNet.init seq mk_head [1; 1; 1] [1; 2; 2] 10 (Some [16; 64; 256])
    0 (1 # 10) true (Some [3; 32; 32]) 4.

Definition iRevNet4_32 : result (iRevNet.t Logits) :=
  iRevNet.init seq mk_head [4; 4; 4] [1; 2; 2] 10 (Some [32; 128; 512])
    0 (1 # 10) true (Some [32; 64; 64]) 4.

Definition iRevNet16x64 : result (iRevNet.t Logits) :=
  iRevNet.init seq mk_head [4; 4; 4] [1; 2; 2] 100 (Some [16; 64; 256])
    0 (1 # 10) true (Some [16; 64; 64]) 4.

Definition iRevNet48x64 : result (iRevNet.t Logits) :=
  iRevNet.init seq mk_head [2; 2; 2] [1; 2; 2] 100 (Some [48; 192; 768])
    0 (1 # 10) true (Some [48; 64; 64]) 4.

Definition iRevNet64x64 : result (iRevNet.t Logits) :=
  iRevNet.init seq mk_head [6; 6; 6] [1; 2; 2] 100 (Some [64; 256; 1024])
    0 (1 # 10) true (Some [64; 64; 64]) 4.

Definition iRevNet18_32 : result (iRevNet.t Logits) :=
  iRevNet.init seq mk_head [18; 18; 18] [1; 2; 2] 10 (Some [32; 128; 512])
    0 (1 # 10) true (Some [32; 64; 64]) 4.

Definition iRevNet24_32 : result (iRevNet.t Logits) :=
  iRevNet.init seq mk_head [24; 24; 24] [1; 2; 2] 10 (Some [32; 128; 512])
    0 (1 # 10) true (Some [32; 64; 64]) 4.

Definition iRevNet18_32_8 : result (iRevNet.t Logits) :=
  iRevNet.init seq mk_head [18; 18; 18] [1; 2; 2] 10 (Some [8; 32; 128])
    0 (1 # 10) true (Some [8; 128; 128]) 4.

Definition iRevNet24_32_8 : result (iRevNet.t Logits) :=
  iRevNet.init seq mk_head [24; 24; 24] [1; 2; 2] 10 (Some [8; 32; 128])
    0 (1 # 10) true (Some [8; 128; 128]) 4.

Definition iRevNet8x112 : result (iRevNet.t Logits) :=
  iRevNet.init seq mk_head [18; 18; 18] [1; 2; 2] 10 (Some [8; 32; 128])
    0 (1 # 10) true (Some [8; 112; 112]) 4.

Definition iRevNet32x56 : result (iRevNet.t Logits) :=
  iRevNet.init seq mk_head [2; 2; 2] [1; 2; 2] 10 (Some [32; 128; 512])
    0 (1 # 10) true (Some [32; 56; 56]) 4.

Definition iRevNet16x56 : result (iRevNet.t Logits) :=
  iRevNet.init seq mk_head [2; 2; 2] [1; 2; 2] 10 (Some [16; 64; 256])
    0 (1 # 10) true (Some [16; 56; 56]) 4.

Definition iRevNet48x56 : result (iRevNet.t Logits) :=
  iRevNet.init seq mk_head [2; 2; 2] [1; 2; 2] 10 (Some [48; 192; 768])
    0 (1 # 10) true (Some [48; 56; 56]) 4.

Definition iRevNet64x56 : result (iRevNet.t Logits) :=
  iRevNet.init seq mk_head [2; 2; 2] [1; 2; 2] 10 (Some [64; 256; 1024])
    0 (1 # 10) true (Some [64; 56; 56]) 4.

Definition iRevNet32x192 : result (iRevNet.t Logits) :=
  iRevNet.init seq mk_head [4; 4; 4] [1; 2; 2] 10 (Some [32; 128; 512])
    0 (1 # 10) true (Some [32; 192; 192]) 4.

Definition iRevNet20x320 : result (iRevNet.t Logits) :=
  iRevNet.init seq mk_head [4; 4; 4] [1; 2; 2] 35 (Some [20; 80; 320])
    0 (1 # 10) true (Some [20; 320; 320]) 4.

Definition iRevNet40x320 : result (iRevNet.t Logits) :=
  iRevNet.init seq mk_head [4; 4; 4] [1; 2; 2] 35 (Some [40; 160; 640])
    0 (1 # 10) true (Some [40; 320; 320]) 4.

Definition iRevNet8x384 : result (iRevNet.t Logits) :=
  iRevNet.init seq mk_head [18; 18; 18] [1; 2; 2] 10 (Some [8; 32; 128])
    0 (1 # 10) true (Some [8; 384; 384]) 4.

Definition all : list (result (iRevNet.t Logits)) :=
  [iRevNet18; iRevNet9; iRevNet4; iRevNet2; iRevNet1; iRevNet4_32;
   iRevNet16x64; iRevNet48x64; iRevNet64x64; iRevNet18_32; iRevNet24_32;
   iRevNet18_32_8; iRevNet24_32_8; iRevNet8x112; iRevNet32x56;
   iRevNet16x56; iRevNet48x56; iRevNet64x56; iRevNet32x192;
   iRevNet20x320; iRevNet40x320; iRevNet8x384].

End Shipped.
End Shipped.

(** A block's channel counts fit its way of combining the halves: a
    padding block pads by a positive count (to [2*out_ch] channels); a
    stride-2 block, whose permutation quadruples the channels of a half,
    has [out_ch = 2*in_ch]; any other block has [in_ch = 2*out_ch]. *)
Definition fits {FW : Framework} (b : irevnet_block.t) : bool :=
  match out_features b with
  | None => false
  | Some out_ch =>
      if irevnet_block.pads b then 0 <? irevnet_block.pad b
      else if irevnet_block.stride b =? 2
           then 2 * irevnet_block.pad b =? 3 * out_ch
           else irevnet_block.pad b =? 0
  end.

(** [sum(l)] *)
Definition sum (l : list Z) : Z := fold_left Z.add l 0.

(** The checks of one constructed network. *)
Definition sound {FW : Framework} {Logits : Type} (net : iRevNet.t Logits)
  : bool :=
  (Z.of_nat (length (iRevNet.stack net)) =? sum (iRevNet.nBlocks net))
  && negb (iRevNet.first net)
  && forallb fits (iRevNet.stack net)
  && forallb (fun b => negb (irevnet_block.pads b)
                       && negb (irevnet_block.first b))
       (tl (iRevNet.stack net))
  && match iRevNet.stack net with
     | b :: _ => irevnet_block.pads b && irevnet_block.first b
     | [] => false
     end
  && (count 2 (map irevnet_block.stride (iRevNet.stack net)) =? 2)
  && match iRevNet.bn1 net, out_features (last (iRevNet.stack net)
                                           (irevnet_block.mk false 0 0 0 0 []
                                              (fun t => t))) with
     | BatchNorm2d n _, Some c => n =? 2 * c
     | _, _ => false
     end.

Section ShippedFacts.
Context {FW : Framework}.
Variable Logits : Type.
Variable seq : nat -> list layer -> Tensor -> Tensor.
Variable mk_head : layer -> Z -> Z * Z -> Tensor -> result Logits.

(** X12: each of the 22 shipped configurations constructs without error.
    Its stack has [sum(nBlocks)] blocks, exactly two of them with stride 2;
    only the first block pads, by a positive channel count, and only it is
    built with [first=True]; every other stride-1 block has
    [in_ch = 2*out_ch] and every stride-2 block [out_ch = 2*in_ch]; the
    head's [bn1] takes twice the channels the last block returns; and
    [self.first] ends [False]. *)
Theorem shipped_configurations_sound :
  Forall (fun r => match r with
                   | Ok net => sound net = true
                   | Raise _ => False
                   end)
         (Shipped.all Logits seq mk_head).
Proof.
  unfold Shipped.all.
  repeat (apply Forall_cons; [vm_compute; reflexivity|]).
  apply Forall_nil.
Qed.

End ShippedFacts.

